(** * Whitespace normalisation of .docx / .odt document trees

    A shallow embedding of [fix_word_spaces_gui.py]: the EXTRA_SPACE
    substitution, the two tree normalisers ([_fix_docx_xml],
    [_fix_odt_xml]), the plain-text projections and the dispatch of
    [fix_file].

    Python values are modelled as follows.
    - A [str] is the list of its code points ([pystr]); [len] is the length
      of that list, so U+00A0 counts for one character as in Python.
    - An [xml.etree.ElementTree.Element] is a record with the fields the
      program touches: tag, attrib, text, tail and the list of children.
      [None] and the empty string are distinct values of text and tail.
    - The counters of [_fix_odt_xml] (the one-cell lists [groups], [chars])
      are threaded explicitly, and an exception is a result [Raise e].
      The tree is mutated in place by the program; here every function
      returns the new value of what it mutates.
    - The builtins whose behaviour rests on Unicode tables or on the
      platform ([int], [str.lower], [os.path.splitext]) and the XML
      library are parameters of the functions that call them; [py_int],
      [ascii_lower], [posix_splitext] and [nt_splitext] are the instances
      used on concrete inputs.
    - The archive plumbing of [fix_docx] / [fix_odt] is a tree of the
      library calls they make, in program order; [run_log] runs it against
      an environment and records every call with its outcome. *)

From Stdlib Require Import List ZArith NArith Bool Lia String Ascii.
From Stdlib.Strings Require Import Byte.
Import ListNotations.

Local Open Scope Z_scope.

(* ------------------------------------------------------------------ *)
(** ** Python strings *)

Definition pystr := list N.

(** A literal of ASCII (Latin-1) characters as a Python string. *)
Fixpoint lit (s : string) : pystr :=
  match s with
  | EmptyString => []
  | String a r => N_of_ascii a :: lit r
  end.

Definition len (s : pystr) : Z := Z.of_nat (List.length s).

Definition pystr_eqb (a b : pystr) : bool :=
  if list_eq_dec N.eq_dec a b then true else false.

(** [s or ""] *)
Definition or_empty (s : option pystr) : pystr :=
  match s with
  | Some v => v
  | None => []
  end.

(** Truthiness of an optional string: [None] and [""] are falsy. *)
Definition truthy (s : option pystr) : bool :=
  match s with
  | Some (_ :: _) => true
  | _ => false
  end.

(** [str.isspace] on one code point (the fixed table of CPython's
    [_PyUnicode_IsWhitespace]). *)
Definition py_isspace (c : N) : bool :=
  (((9 <=? c) && (c <=? 13)) || ((28 <=? c) && (c <=? 32))
   || (c =? 133) || (c =? 160) || (c =? 5760)
   || ((8192 <=? c) && (c <=? 8202))
   || (c =? 8232) || (c =? 8233) || (c =? 8239) || (c =? 8287)
   || (c =? 12288))%N.

Fixpoint lstrip (s : pystr) : pystr :=
  match s with
  | [] => []
  | c :: r => if py_isspace c then lstrip r else s
  end.

(** [str.strip()] with no argument. *)
Definition strip (s : pystr) : pystr := rev (lstrip (rev (lstrip s))).

(** [" " * n]; a count below one gives the empty string. *)
Definition spaces (n : Z) : pystr := repeat 32%N (Z.to_nat n).

(* ------------------------------------------------------------------ *)
(** ** The EXTRA_SPACE pattern *)

(** The character class of the pattern: U+0020 and U+00A0. *)
Definition is_space_char (c : N) : bool := ((c =? 32) || (c =? 160))%N.

Definition starts_with_space (s : pystr) : bool :=
  match s with
  | c :: _ => is_space_char c
  | [] => false
  end.

(** [EXTRA_SPACE.subn] with a one-space replacement, the pattern being
    two or more characters of the class ([{2,}], greedy): the
    left-to-right scan of the regex engine.  A match starts where two
    characters of the class follow each other; [in_match] says that such a
    match is open (its replacement has been emitted already) and, the
    quantifier being greedy, every further character of the class is
    consumed by it.  The result is the new string and the number of
    substitutions. *)
Fixpoint subn_from (in_match : bool) (s : pystr) : pystr * Z :=
  match s with
  | [] => ([], 0)
  | c :: r =>
      if is_space_char c then
        if in_match then subn_from true r
        else if starts_with_space r
             then let '(o, n) := subn_from true r in (32%N :: o, n + 1)
             else let '(o, n) := subn_from false r in (c :: o, n)
      else let '(o, n) := subn_from false r in (c :: o, n)
  end.

Definition EXTRA_SPACE_subn (s : pystr) : pystr * Z := subn_from false s.

(** *** The run decomposition the specification speaks of *)

(** The maximal blocks of [s]: consecutive characters are in one block
    exactly when both are in the class or both are outside it. *)
Fixpoint segments (s : pystr) : list pystr :=
  match s with
  | [] => []
  | c :: r =>
      match segments r with
      | (d :: seg) :: rest =>
          if Bool.eqb (is_space_char c) (is_space_char d)
          then (c :: d :: seg) :: rest
          else [c] :: (d :: seg) :: rest
      | _ => [[c]]
      end
  end.

(** A space run: a block of two or more characters of the class. *)
Definition is_space_run (seg : pystr) : bool :=
  forallb is_space_char seg && (2 <=? len seg).

Definition collapse_segment (seg : pystr) : pystr :=
  if is_space_run seg then [32%N] else seg.

Definition space_runs (s : pystr) : list pystr :=
  filter is_space_run (segments s).

Definition sum_Z (l : list Z) : Z := fold_right Z.add 0 l.

(** Every block is homogeneous: all its characters are in the class, or
    none is. *)
Definition homogeneous (seg : pystr) : bool :=
  match seg with
  | [] => false
  | d :: t => forallb (fun x => Bool.eqb (is_space_char x) (is_space_char d)) t
  end.

(** Two neighbouring blocks are of different kinds, so that no block can
    be extended: the blocks are maximal. *)
Fixpoint alternating (segs : list pystr) : bool :=
  match segs with
  | a :: r =>
      match r with
      | b :: _ => negb (Bool.eqb (starts_with_space a) (starts_with_space b))
      | [] => true
      end && alternating r
  | [] => true
  end.

(** The substitution as the specification words it: every space run
    becomes one space, and the runs are counted. *)
Definition spec_subn (segs : list pystr) : pystr * Z :=
  (List.concat (map collapse_segment segs),
   Z.of_nat (List.length (filter is_space_run segs))).

(** No two characters of the class follow each other. *)
Fixpoint no_run (s : pystr) : bool :=
  match s with
  | [] => true
  | c :: r => negb (is_space_char c && starts_with_space r) && no_run r
  end.

(* ------------------------------------------------------------------ *)
(** ** Transformation statistics *)

Record stats := mkStats { groups : Z; chars : Z }.

Definition stats0 : stats := mkStats 0 0.

Definition bump (n c : Z) (st : stats) : stats :=
  mkStats (groups st + n) (chars st + c).

(** The inner function [collapse] of [_fix_odt_xml]. *)
Definition collapse (s : option pystr) (st : stats) : option pystr * stats :=
  if truthy s then
    let '(fixed, n) := EXTRA_SPACE_subn (or_empty s) in
    (Some fixed,
     if n =? 0 then st else bump n (len (or_empty s) - len fixed) st)
  else (s, st).

(* ------------------------------------------------------------------ *)
(** ** Exceptions and the counter-threading monad *)

Inductive exn :=
| ValueError (msg : pystr)
| IndexError
| OtherError (msg : pystr).

Inductive res (A : Type) :=
| Ok (a : A)
| Raise (e : exn).
Arguments Ok {A} a.
Arguments Raise {A} e.

(** A computation that reads and updates the two counters and may raise. *)
Definition M (A : Type) : Type := stats -> res (A * stats).

Definition ret {A} (a : A) : M A := fun st => Ok (a, st).

Definition raise {A} (e : exn) : M A := fun _ => Raise e.

Definition bind {A B} (m : M A) (k : A -> M B) : M B :=
  fun st =>
    match m st with
    | Ok (a, st') => k a st'
    | Raise e => Raise e
    end.

Notation "x <- m ;; k" := (bind m (fun x => k))
  (at level 61, m at next level, right associativity).
Notation "' p <- m ;; k" := (bind m (fun p => k))
  (at level 61, p pattern, m at next level, right associativity).

Definition collapseM (s : option pystr) : M (option pystr) :=
  fun st => Ok (collapse s st).

Definition liftR {A} (r : res A) : M A :=
  fun st => match r with Ok a => Ok (a, st) | Raise e => Raise e end.

(* ------------------------------------------------------------------ *)
(** ** Document trees *)

#[local] Unset Elimination Schemes.
Inductive Element := mkElement {
  tag : string;
  attrib : list (string * pystr);
  text : option pystr;
  tail : option pystr;
  children : list Element
}.
#[local] Set Elimination Schemes.

Definition set_text (e : Element) (t : option pystr) : Element :=
  mkElement (tag e) (attrib e) t (tail e) (children e).

Definition set_tail (e : Element) (t : option pystr) : Element :=
  mkElement (tag e) (attrib e) (text e) t (children e).

Definition set_children (e : Element) (cs : list Element) : Element :=
  mkElement (tag e) (attrib e) (text e) (tail e) cs.

(** [el.get(key)] *)
Fixpoint attr_get (k : string) (a : list (string * pystr)) : option pystr :=
  match a with
  | [] => None
  | (k', v) :: r => if String.eqb k k' then Some v else attr_get k r
  end.

(** [el.set(key, value)]: the dict keeps the position of a key it has. *)
Fixpoint attr_set (k : string) (v : pystr) (a : list (string * pystr))
  : list (string * pystr) :=
  match a with
  | [] => [(k, v)]
  | (k', v') :: r =>
      if String.eqb k k' then (k, v) :: r else (k', v') :: attr_set k v r
  end.

Definition set_attr (e : Element) (k : string) (v : pystr) : Element :=
  mkElement (tag e) (attr_set k v (attrib e)) (text e) (tail e) (children e).

(** [root.iter(tag)]: the element and its descendants with that tag, in
    document order. *)
Fixpoint iter (tg : string) (e : Element) : list Element :=
  (if String.eqb (tag e) tg then [e] else [])
  ++ flat_map (iter tg) (children e).

(** The elements strictly below [e], in document order. *)
Fixpoint descendants (e : Element) : list Element :=
  flat_map (fun c => c :: descendants c) (children e).

Fixpoint replace_nth {A} (i : nat) (x : A) (l : list A) : list A :=
  match l, i with
  | [], _ => []
  | _ :: r, O => x :: r
  | y :: r, S j => y :: replace_nth j x r
  end.

Fixpoint remove_nth {A} (i : nat) (l : list A) : list A :=
  match l, i with
  | [], _ => []
  | _ :: r, O => r
  | y :: r, S j => y :: remove_nth j r
  end.

(* ------------------------------------------------------------------ *)
(** ** DOCX *)

Definition DOCX_W : string :=
  "http://schemas.openxmlformats.org/wordprocessingml/2006/main".
Definition W_T : string := "{" ++ DOCX_W ++ "}t".
Definition W_P : string := "{" ++ DOCX_W ++ "}p".
Definition XML_SPACE : string := "{http://www.w3.org/XML/1998/namespace}space".

(** [fixed != fixed.strip()] *)
Definition needs_preserve (fixed : pystr) : bool :=
  negb (pystr_eqb fixed (strip fixed)).

(** The body of the loop of [_fix_docx_xml] for one [w:t] element: first
    its text, then its tail. *)
Definition fix_wt (wt : Element) (st : stats) : Element * stats :=
  let '(wt1, st1) :=
    if truthy (text wt) then
      let val := or_empty (text wt) in
      let '(fixed, n) := EXTRA_SPACE_subn val in
      if n =? 0 then (wt, st)
      else
        let wt' := set_text wt (Some fixed) in
        (if needs_preserve fixed
         then set_attr wt' XML_SPACE (lit "preserve") else wt',
         bump n (len val - len fixed) st)
    else (wt, st) in
  if truthy (tail wt1) then
    let val := or_empty (tail wt1) in
    let '(fixed, n) := EXTRA_SPACE_subn val in
    if n =? 0 then (wt1, st1)
    else (set_tail wt1 (Some fixed), bump n (len val - len fixed) st1)
  else (wt1, st1).

Definition map_state {A B S} (f : A -> S -> B * S)
  : list A -> S -> list B * S :=
  fix go (l : list A) (st : S) : list B * S :=
    match l with
    | [] => ([], st)
    | x :: r =>
        let '(y, st1) := f x st in
        let '(ys, st2) := go r st1 in
        (y :: ys, st2)
    end.

(** The loop [for wt in root.iter(W_T)] of [_fix_docx_xml], on the parsed
    tree: every [w:t] element is visited once, in document order. *)
Fixpoint fix_docx_element (e : Element) (st : stats) : Element * stats :=
  let '(e1, st1) := if String.eqb (tag e) W_T then fix_wt e st else (e, st) in
  let '(cs, st2) := map_state fix_docx_element (children e) st1 in
  (set_children e1 cs, st2).

(** [_fix_docx_xml] between [ET.fromstring] and [ET.tostring]: the new
    tree, [groups] and [chars]. *)
Definition fix_docx_tree (root : Element) : Element * Z * Z :=
  let '(root', st) := fix_docx_element root stats0 in
  (root', groups st, chars st).

(** [sep.join(lines)] for the separator ["\n"]. *)
Fixpoint join_lines (ls : list pystr) : pystr :=
  match ls with
  | [] => []
  | l :: r =>
      match r with
      | [] => l
      | _ :: _ => l ++ 10%N :: join_lines r
      end
  end.

(** [_plain_docx] after [ET.fromstring]. *)
Definition plain_docx (root : Element) : pystr :=
  join_lines
    (map (fun para =>
            List.concat
              (map (fun wt => or_empty (text wt))
                 (filter (fun wt => truthy (text wt)) (iter W_T para))))
       (iter W_P root)).

(* ------------------------------------------------------------------ *)
(** ** ODT *)

Definition ODT_TEXT : string := "urn:oasis:names:tc:opendocument:xmlns:text:1.0".
Definition T_S : string := "{" ++ ODT_TEXT ++ "}s".
Definition T_P : string := "{" ++ ODT_TEXT ++ "}p".
Definition T_C_ATTR : string := "{" ++ ODT_TEXT ++ "}c".

Definition to_remove_t : Type := list (nat * pystr).

Section Odt.

(** The builtin [int] applied to a [str]: its value, or the
    [ValueError] it raises.  The normaliser is stated for any such
    function; [py_int] below is the instance used on concrete inputs. *)
Variable int : pystr -> res Z.

(** [int(raw_c) if raw_c is not None else 1] for
    [raw_c = child.get(T_C_ATTR)]. *)
Definition repeat_count (child : Element) : res Z :=
  match attr_get T_C_ATTR (attrib child) with
  | Some raw_c => int raw_c
  | None => Ok 1
  end.

(** What the loop body of [fix_element] does with the child at index
    [i] once [fix_element(child)] has returned: the child as it is left
    in the tree and the entries appended to [to_remove]. *)
Definition inspect_child (i : nat) (child : Element)
  : M (Element * to_remove_t) :=
  if String.eqb (tag child) T_S then
    count <- liftR (repeat_count child) ;;
    if 1 <? count then
      fun st =>
        Ok ((child, [(i, or_empty (tail child))]), bump 1 (count - 1) st)
    else
      t <- collapseM (tail child) ;;
      ret (set_tail child t, [])
  else
    t <- collapseM (tail child) ;;
    ret (set_tail child t, []).

(** The loop [for i, child in enumerate(parent)], from index [i] on. *)
Definition scan_children (fix_element : Element -> M Element)
  : nat -> list Element -> M (list Element * to_remove_t) :=
  fix scan (i : nat) (cs : list Element) : M (list Element * to_remove_t) :=
    match cs with
    | [] => ret ([], [])
    | child :: r =>
        child1 <- fix_element child ;;
        '(child2, sched) <- inspect_child i child1 ;;
        '(r', to_remove) <- scan (S i) r ;;
        ret (child2 :: r', sched ++ to_remove)
    end.

(** One round of the removal loop, on the parent's text and children.
    [parent.remove(parent[i])] removes the child at index [i]: the
    children of a parsed tree are distinct objects. *)
Definition remove_one (p : option pystr * list Element)
  (entry : nat * pystr) : M (option pystr * list Element) :=
  let '(ptext, cs) := p in
  let '(i, tl) := entry in
  space_plus_tail <- collapseM (Some (32%N :: tl)) ;;
  '(ptext1, cs1) <-
    (if Nat.eqb i 0 then
       t <- collapseM (Some (or_empty ptext ++ or_empty space_plus_tail)) ;;
       ret (t, cs)
     else
       match nth_error cs (i - 1) with
       | None => raise IndexError
       | Some prev =>
           t <- collapseM
                  (Some (or_empty (tail prev) ++ or_empty space_plus_tail)) ;;
           ret (ptext, replace_nth (i - 1) (set_tail prev t) cs)
       end) ;;
  match nth_error cs1 i with
  | None => raise IndexError
  | Some _ => ret (ptext1, remove_nth i cs1)
  end.

(** [for i, tail in reversed(to_remove)], given the reversed list. *)
Fixpoint remove_pass (p : option pystr * list Element)
  (l : to_remove_t) : M (option pystr * list Element) :=
  match l with
  | [] => ret p
  | entry :: r => p' <- remove_one p entry ;; remove_pass p' r
  end.

(** The inner function [fix_element]: the parent's text is collapsed,
    the children are scanned in order, and the scheduled markers are then
    removed from the last to the first.  The tail of [parent] is left to
    the caller. *)
Fixpoint fix_element (parent : Element) : M Element :=
  ptext <- collapseM (text parent) ;;
  '(cs, to_remove) <- scan_children fix_element 0 (children parent) ;;
  '(ptext', cs') <- remove_pass (ptext, cs) (rev to_remove) ;;
  ret (mkElement (tag parent) (attrib parent) ptext' (tail parent) cs').

(** [_fix_odt_xml] between [ET.fromstring] and [ET.tostring]: the new
    tree, [groups[0]] and [chars[0]]. *)
Definition fix_odt_tree (root : Element) : res (Element * Z * Z) :=
  match fix_element root stats0 with
  | Ok (root', st) => Ok (root', groups st, chars st)
  | Raise e => Raise e
  end.

(** [for ch in el: _collect(ch)]: the parts appended for a list of
    children. *)
Definition collect_list (_collect : Element -> res (list pystr))
  : list Element -> res (list pystr) :=
  fix go (cs : list Element) : res (list pystr) :=
    match cs with
    | [] => Ok []
    | ch :: r =>
        match _collect ch with
        | Raise e => Raise e
        | Ok ps =>
            match go r with
            | Raise e => Raise e
            | Ok qs => Ok (ps ++ qs)
            end
        end
    end.

(** The parts [_collect(el)] appends. *)
Fixpoint _collect (el : Element) : res (list pystr) :=
  if String.eqb (tag el) T_S then
    match int (match attr_get T_C_ATTR (attrib el) with
               | Some v => v
               | None => lit "1"
               end) with
    | Raise e => Raise e
    | Ok n =>
        Ok (spaces n :: (if truthy (tail el) then [or_empty (tail el)] else []))
    end
  else
    match collect_list _collect (children el) with
    | Raise e => Raise e
    | Ok ps =>
        Ok ((if truthy (text el) then [or_empty (text el)] else [])
            ++ ps
            ++ (if truthy (tail el) then [or_empty (tail el)] else []))
    end.

(** One line of [_plain_odt]: the text of paragraph [para]. *)
Definition para_line (para : Element) : res pystr :=
  match collect_list _collect (children para) with
  | Raise e => Raise e
  | Ok ps =>
      Ok (List.concat ((if truthy (text para) then [or_empty (text para)] else [])
                  ++ ps))
  end.

Fixpoint lines_of (paras : list Element) : res (list pystr) :=
  match paras with
  | [] => Ok []
  | para :: r =>
      match para_line para with
      | Raise e => Raise e
      | Ok l =>
          match lines_of r with
          | Raise e => Raise e
          | Ok ls => Ok (l :: ls)
          end
      end
  end.

(** [_plain_odt] after [ET.fromstring]. *)
Definition plain_odt (root : Element) : res pystr :=
  match lines_of (iter T_P root) with
  | Raise e => Raise e
  | Ok ls => Ok (join_lines ls)
  end.

End Odt.

(** The value of an ASCII digit. *)
Definition digit_val (c : N) : option Z :=
  if ((48 <=? c) && (c <=? 57))%N then Some (Z.of_N c - 48) else None.

(** The digits after the first one, read into [acc]. *)
Fixpoint parse_digits (acc : Z) (s : pystr) : option Z :=
  match s with
  | [] => Some acc
  | c :: r =>
      if (c =? 95)%N then
        match r with
        | d :: r' =>
            match digit_val d with
            | Some v => parse_digits (10 * acc + v) r'
            | None => None
            end
        | [] => None
        end
      else
        match digit_val c with
        | Some v => parse_digits (10 * acc + v) r
        | None => None
        end
  end.

Definition parse_unsigned (s : pystr) : option Z :=
  match s with
  | d :: r =>
      match digit_val d with
      | Some v => parse_digits v r
      | None => None
      end
  | [] => None
  end.

(** The [ValueError] of [int], for an argument whose [repr] is the
    string between quotes. *)
Definition int_error (s : pystr) : exn :=
  ValueError (lit "invalid literal for int() with base 10: '" ++ s ++ lit "'").

(** [int] on a [str] of ASCII characters, in base 10: surrounding
    whitespace is stripped, one sign is allowed, and single underscores
    may separate digits.  Decimal digits outside ASCII, which [int] also
    reads, are rejected here. *)
Definition py_int (s : pystr) : res Z :=
  let t := strip s in
  let r :=
    match t with
    | 43%N :: u => parse_unsigned u
    | 45%N :: u => option_map Z.opp (parse_unsigned u)
    | _ => parse_unsigned t
    end in
  match r with
  | Some v => Ok v
  | None => Raise (int_error s)
  end.

(* ------------------------------------------------------------------ *)
(** ** Paths *)

(** [p.rfind(c)] for a one-character [c]: the last index, or -1. *)
Fixpoint rfind_from (c : N) (p : pystr) (i last : Z) : Z :=
  match p with
  | [] => last
  | x :: r => rfind_from c r (i + 1) (if (x =? c)%N then i else last)
  end.

Definition rfind (c : N) (p : pystr) : Z := rfind_from c p 0 (-1).

(** [p[a:b]] for indices that are not negative. *)
Definition slice (p : pystr) (a b : Z) : pystr :=
  firstn (Z.to_nat b - Z.to_nat a) (skipn (Z.to_nat a) p).

(** [genericpath._splitext(p, sep, altsep, ".")], the body of
    [os.path.splitext]: the extension starts at the last dot of the last
    path component, unless that component has only dots before it. *)
Definition _splitext (sep : N) (altsep : option N) (p : pystr)
  : pystr * pystr :=
  let sepIndex :=
    match altsep with
    | Some a => Z.max (rfind sep p) (rfind a p)
    | None => rfind sep p
    end in
  let dotIndex := rfind 46%N p in
  if (sepIndex <? dotIndex)
     && existsb (fun c => negb (c =? 46)%N) (slice p (sepIndex + 1) dotIndex)
  then (firstn (Z.to_nat dotIndex) p, skipn (Z.to_nat dotIndex) p)
  else (p, []).

Definition posix_splitext : pystr -> pystr * pystr := _splitext 47%N None.
Definition nt_splitext : pystr -> pystr * pystr := _splitext 92%N (Some 47%N).

(** [str.lower] on ASCII letters. *)
Definition ascii_lower (s : pystr) : pystr :=
  map (fun c => if ((65 <=? c) && (c <=? 90))%N then (c + 32)%N else c) s.

(* ------------------------------------------------------------------ *)
(** ** The archive rewriters and [fix_file] *)

Definition bytes := list byte.

Record ZipInfo := mkZipInfo { filename : pystr; zip_meta : N }.

Inductive zip_mode := ModeRead | ModeWriteDeflated.

(** The library calls of [fix_docx] and [fix_odt]. *)
Inductive call : Type -> Type :=
| Mkstemp (suffix : pystr) : call (Z * pystr)
| OsClose (fd : Z) : call unit
| ZipOpen (path : pystr) (mode : zip_mode) : call Z
| ZipClose (zf : Z) : call unit
| ZipRead (zf : Z) (name : pystr) : call bytes
| ZipInfolist (zf : Z) : call (list ZipInfo)
| ZipWritestr (zf : Z) (item : ZipInfo) (data : bytes) : call unit
| ShutilMove (src dst : pystr) : call unit
| PathExists (path : pystr) : call bool
| Unlink (path : pystr) : call unit.

(** A program over these calls: it returns, raises, or makes a call and
    goes on with its outcome (a value or the exception the call raised). *)
Inductive prog (A : Type) : Type :=
| Return (a : A)
| Throw (e : exn)
| Call {R : Type} (c : call R) (k : res R -> prog A).
Arguments Return {A} a.
Arguments Throw {A} e.
Arguments Call {A R} c k.

Fixpoint pbind {A B} (m : prog A) (f : A -> prog B) : prog B :=
  match m with
  | Return a => f a
  | Throw e => Throw e
  | Call c k => Call c (fun r => pbind (k r) f)
  end.

(** [try: m  except Exception as e: h e] *)
Fixpoint catch {A} (m : prog A) (h : exn -> prog A) : prog A :=
  match m with
  | Return a => Return a
  | Throw e => h e
  | Call c k => Call c (fun r => catch (k r) h)
  end.

Definition do_call {R} (c : call R) : prog R :=
  Call c (fun r => match r with Ok v => Return v | Raise e => Throw e end).

Definition of_res {A} (r : res A) : prog A :=
  match r with Ok a => Return a | Raise e => Throw e end.

Declare Scope prog_scope.
Delimit Scope prog_scope with prog.
Notation "x <- m ;; k" := (pbind m (fun x => k))
  (at level 61, m at next level, right associativity) : prog_scope.
Notation "' p <- m ;; k" := (pbind m (fun p => k))
  (at level 61, p pattern, m at next level, right associativity) : prog_scope.

(** [with zipfile.ZipFile(path, mode) as zf: body]: the archive is closed
    on the way out, also when [body] raises. *)
Definition with_zip {A} (path : pystr) (mode : zip_mode)
  (body : Z -> prog A) : prog A :=
  (zf <- do_call (ZipOpen path mode) ;;
   a <- catch (body zf) (fun e => _ <- do_call (ZipClose zf) ;; Throw e) ;;
   _ <- do_call (ZipClose zf) ;;
   Return a)%prog.

Record fix_result := mkResult {
  r_groups : Z;
  r_chars : Z;
  r_before : pystr;
  r_after : pystr
}.

Section FixFile.

(** [ET.fromstring], and [ET.tostring] followed by the UTF-8 encoding. *)
Variable fromstring : bytes -> res Element.
Variable tostring : Element -> bytes.
Variable int : pystr -> res Z.
(** [os.path.splitext] of the platform and [str.lower]. *)
Variable splitext : pystr -> pystr * pystr.
Variable lower : pystr -> pystr.

Definition _fix_docx_xml (xml_bytes : bytes) : res (bytes * Z * Z) :=
  match fromstring xml_bytes with
  | Raise e => Raise e
  | Ok root =>
      let '(root', g, c) := fix_docx_tree root in Ok (tostring root', g, c)
  end.

Definition _plain_docx (xml_bytes : bytes) : res pystr :=
  match fromstring xml_bytes with
  | Raise e => Raise e
  | Ok root => Ok (plain_docx root)
  end.

Definition _fix_odt_xml (xml_bytes : bytes) : res (bytes * Z * Z) :=
  match fromstring xml_bytes with
  | Raise e => Raise e
  | Ok root =>
      match fix_odt_tree int root with
      | Raise e => Raise e
      | Ok (root', g, c) => Ok (tostring root', g, c)
      end
  end.

Definition _plain_odt (xml_bytes : bytes) : res pystr :=
  match fromstring xml_bytes with
  | Raise e => Raise e
  | Ok root => plain_odt int root
  end.

(** The body shared by [fix_docx] and [fix_odt], which differ in the
    suffix of the temporary file, the entry they rewrite and the pair of
    functions applied to it. *)
Definition rewrite_archive (suffix entry : pystr)
  (fix_xml : bytes -> res (bytes * Z * Z)) (plain : bytes -> res pystr)
  (inp out : pystr) : prog fix_result :=
  ('(tmp_fd, tmp) <- do_call (Mkstemp suffix) ;;
   _ <- do_call (OsClose tmp_fd) ;;
   catch
     ('(tg, tc, before, after) <-
        with_zip inp ModeRead (fun zin =>
          doc <- do_call (ZipRead zin entry) ;;
          before <- of_res (plain doc) ;;
          with_zip tmp ModeWriteDeflated (fun zout =>
            items <- do_call (ZipInfolist zin) ;;
            (fix loop (items : list ZipInfo) (acc : Z * Z * pystr)
               : prog (Z * Z * pystr * pystr) :=
               match items with
               | [] => let '(tg, tc, after) := acc in
                       Return (tg, tc, before, after)
               | item :: rest =>
                   data <- do_call (ZipRead zin (filename item)) ;;
                   '(data', acc') <-
                     (if pystr_eqb (filename item) entry then
                        '(data', g, c) <- of_res (fix_xml data) ;;
                        after <- of_res (plain data') ;;
                        let '(tg, tc, _) := acc in
                        Return (data', (tg + g, tc + c, after))
                      else Return (data, acc)) ;;
                   _ <- do_call (ZipWritestr zout item data') ;;
                   loop rest acc'
               end) items (0, 0, []))) ;;
      _ <- do_call (ShutilMove tmp out) ;;
      Return (mkResult tg tc before after))
     (fun e =>
        ex <- do_call (PathExists tmp) ;;
        _ <- (if ex : bool then do_call (Unlink tmp) else Return tt) ;;
        Throw e))%prog.

Definition fix_docx : pystr -> pystr -> prog fix_result :=
  rewrite_archive (lit ".docx") (lit "word/document.xml")
    _fix_docx_xml _plain_docx.

Definition fix_odt : pystr -> pystr -> prog fix_result :=
  rewrite_archive (lit ".odt") (lit "content.xml")
    _fix_odt_xml _plain_odt.

Definition unsupported (ext : pystr) : exn :=
  ValueError (lit "Unsupported type: " ++ ext ++ lit "  (use .docx or .odt)").

Definition fix_file (inp out : pystr) : prog fix_result :=
  let ext := lower (snd (splitext inp)) in
  if pystr_eqb ext (lit ".docx") then fix_docx inp out
  else if pystr_eqb ext (lit ".odt") then fix_odt inp out
  else Throw (unsupported ext).

End FixFile.

(* ------------------------------------------------------------------ *)
(** ** Notions used to state the properties *)

(** The element reached from [e] by a path of child indices. *)
Fixpoint subtree (e : Element) (path : list nat) : option Element :=
  match path with
  | [] => Some e
  | i :: r =>
      match nth_error (children e) i with
      | Some c => subtree c r
      | None => None
      end
  end.

Definition clean (t : option pystr) : bool := no_run (or_empty t).

Fixpoint docx_clean (e : Element) : bool :=
  (if String.eqb (tag e) W_T then clean (text e) && clean (tail e) else true)
  && forallb docx_clean (children e).

Definition text_changed (wt : Element) : bool :=
  negb (pystr_eqb (fst (EXTRA_SPACE_subn (or_empty (text wt))))
          (or_empty (text wt))).

Definition flag_condition (wt : Element) : bool :=
  text_changed wt
  && needs_preserve (fst (EXTRA_SPACE_subn (or_empty (text wt)))).

(* The ODT notions are stated for any [int], like the normaliser. *)
Section OdtDefs.
Variable int : pystr -> res Z.

(** A marker the normaliser removes: [text:s] with a count above one. *)
Definition removable (c : Element) : bool :=
  String.eqb (tag c) T_S &&
  match repeat_count int c with
  | Ok n => 1 <? n
  | Raise _ => false
  end.

(** An element the normaliser keeps: no marker, or a marker whose count
    is an integer not above one. *)
Definition kept_ok (c : Element) : bool :=
  if String.eqb (tag c) T_S then
    match repeat_count int c with
    | Ok n => negb (1 <? n)
    | Raise _ => false
    end
  else true.

(** A normalised subtree: the text has no run, and every child is kept,
    has a tail without a run and is normalised in turn. *)
Fixpoint odt_normal (e : Element) : bool :=
  clean (text e)
  && forallb (fun c => odt_normal c && kept_ok c && clean (tail c))
       (children e).

(** The list [to_remove] for children [cs] scanned from index [i]. *)
Fixpoint entries (i : nat) (cs : list Element) : to_remove_t :=
  match cs with
  | [] => []
  | c :: r =>
      (if removable c then [(i, or_empty (tail c))] else [])
      ++ entries (S i) r
  end.

Definition tag_attrib (c : Element) := (tag c, attrib c).

(** A child as the scan leaves it: normalised inside, and either
    scheduled for removal or kept with a tail without a run. *)
Definition scanned (c : Element) : Prop :=
  odt_normal c = true /\
  (removable c = true \/ (kept_ok c = true /\ clean (tail c) = true)).

Definition kept_child (c : Element) : bool :=
  odt_normal c && kept_ok c && clean (tail c).
(** What [fix_element] guarantees of its result when it returns. *)
Definition fix_element_sound (c : Element) : Prop :=
  forall st c' st', fix_element int c st = Ok (c', st') ->
    odt_normal c' = true /\ tag c' = tag c /\ attrib c' = attrib c /\
    tail c' = tail c.

(** A marker whose count attribute is present and rejected by [int]. *)
Definition bad_marker (x : exn) (d : Element) : Prop :=
  tag d = T_S /\
  exists raw, attr_get T_C_ATTR (attrib d) = Some raw /\ int raw = Raise x.

End OdtDefs.

(** What one removal appends to the text before the marker: the space
    and the captured tail, collapsed, then the whole collapsed again. *)
Definition splice (before : option pystr) (tl : pystr) (st : stats)
  : option pystr * stats :=
  let '(space_plus_tail, st1) := collapse (Some (32%N :: tl)) st in
  collapse (Some (or_empty before ++ or_empty space_plus_tail)) st1.

Definition same_but_tail (c c' : Element) : Prop :=
  tag c' = tag c /\ attrib c' = attrib c /\ text c' = text c /\
  children c' = children c /\ (tail c' = tail c \/ clean (tail c') = true).

(** The effect of removals on what precedes the removed markers: only the
    text slot immediately before them can change. *)
Inductive prefix_rel (pt : option pystr)
  : list Element -> option pystr -> list Element -> Prop :=
| pr_nil pt' : pt' = pt \/ clean pt' = true -> prefix_rel pt [] pt' []
| pr_snoc pre0 p p' :
    same_but_tail p p' -> prefix_rel pt (pre0 ++ [p]) pt (pre0 ++ [p']).

Fixpoint ends_with_space (s : pystr) : bool :=
  match s with
  | [] => false
  | c :: r =>
      match r with
      | [] => is_space_char c
      | _ :: _ => ends_with_space r
      end
  end.

(** The marker [<text:s text:c="count"/>] followed by [tl]. *)
Definition marker (count : string) (tl : option pystr) : Element :=
  mkElement T_S [(T_C_ATTR, lit count)] None tl [].

(** The paragraph [<text:p>] with text [tx] and children [cs]. *)
Definition paragraph (tx : option pystr) (cs : list Element) : Element :=
  mkElement T_P [] tx None cs.

(** The document element of the self-test cases around one paragraph. *)
Definition document (p : Element) : Element :=
  mkElement "r" [] None None [p].

Definition three_spaces : pystr := [32%N; 32%N; 32%N].

Definition adjacent_markers : Element :=
  document (paragraph (Some (lit "x"))
              [marker "2" (Some (lit "a")); marker "3" (Some (lit "b"))]).

Definition non_space (s : pystr) : pystr :=
  filter (fun c => negb (py_isspace c)) s.

Inductive any_call : Type := AnyCall (R : Type) (c : call R).
Arguments AnyCall {R} c.

(** A program run against an environment that answers every library call
    (with a value or an exception) and changes state as it does: the
    calls made, the outcome and the final state. *)
Fixpoint run {W A} (answer : forall R, call R -> W -> res R * W)
  (m : prog A) (w : W) : list any_call * res A * W :=
  match m with
  | Return a => ([], Ok a, w)
  | Throw e => ([], Raise e, w)
  | Call c k =>
      let '(r, w1) := answer _ c w in
      let '(cs, out, w2) := run answer (k r) w1 in
      (AnyCall c :: cs, out, w2)
  end.

(** The suffix of the temporary file a program starts by creating. *)
Definition first_temp_suffix {A} (m : prog A) : option pystr :=
  match m with
  | Call c _ =>
      match c with
      | Mkstemp suffix => Some suffix
      | _ => None
      end
  | _ => None
  end.

(** Stand-ins for the XML library on concrete paths, where no archive is
    opened. *)
Definition no_parse (_ : bytes) : res Element := Raise (OtherError []).
Definition no_print (_ : Element) : bytes := [].

(** *** Notions for the preservation of text *)

(** A string without its spaces and no-break spaces. *)
Definition squeeze (s : pystr) : pystr :=
  filter (fun c => negb (is_space_char c)) s.


Section Projection.
Variable int : pystr -> res Z.












End Projection.


(** How removals change what precedes them: only the text slot just
    before the removed markers, the parent's text or the tail of the
    last element of the prefix, from [old] to [new]. *)
Inductive slot_rel (pt : option pystr)
  : list Element -> option pystr -> list Element ->
    option pystr -> option pystr -> Prop :=
| sr_nil pt' : slot_rel pt [] pt' [] pt pt'
| sr_snoc pre0 p t :
    slot_rel pt (pre0 ++ [p]) pt (pre0 ++ [set_tail p t]) (tail p) t.

(** Induction on document trees, with the hypothesis for every child. *)
Fixpoint Element_ind (P : Element -> Prop)
  (H : forall tg a tx tl cs, Forall P cs -> P (mkElement tg a tx tl cs))
  (e : Element) {struct e} : P e :=
  match e with
  | mkElement tg a tx tl cs =>
      H tg a tx tl cs
        ((fix all (l : list Element) : Forall P l :=
            match l with
            | [] => Forall_nil P
            | c :: r => Forall_cons c (Element_ind P H c) (all r)
            end) cs)
  end.

(** ** Notions for the further properties *)

(** *** Counting runs; the shape of a tree *)

(** The number of space runs of an optional string, and the characters
    their collapse removes. *)
Definition runs_in (t : option pystr) : Z :=
  Z.of_nat (List.length (space_runs (or_empty t))).

Definition removed_in (t : option pystr) : Z :=
  sum_Z (map (fun run => len run - 1) (space_runs (or_empty t))).

(** The runs and removable characters of the [w:t] elements of a tree:
    of their text and of their tail. *)
Definition docx_runs (root : Element) : Z :=
  sum_Z (map (fun wt => runs_in (text wt) + runs_in (tail wt)) (iter W_T root)).

Definition docx_removed (root : Element) : Z :=
  sum_Z (map (fun wt => removed_in (text wt) + removed_in (tail wt))
           (iter W_T root)).

#[local] Unset Elimination Schemes.
(** The shape of a tree under a labelling of its elements. *)
Inductive shape (A : Type) : Type :=
| Node (label : A) (subs : list (shape A)).
#[local] Set Elimination Schemes.
Arguments Node {A} label subs.

Fixpoint shape_of {A} (f : Element -> A) (e : Element) : shape A :=
  Node (f e) (map (shape_of f) (children e)).

(** What the DOCX normaliser leaves alone in an element: its tag and,
    unless it is a [w:t], its attributes, text and tail. *)
Definition docx_fixed_part (e : Element)
  : string * option (list (string * pystr) * option pystr * option pystr) :=
  (tag e,
   if String.eqb (tag e) W_T then None
   else Some (attrib e, text e, tail e)).

(** *** Growth of the counters *)

(** The counters only grow from [st] to [st'], the characters at least
    as much as the runs. *)
Definition grew (st st' : stats) : Prop :=
  groups st <= groups st' /\
  groups st' - groups st <= chars st' - chars st.

(** A computation under which the counters only grow, and which leaves
    the counters and its subject alone when the run counter stays. *)
Definition grows {A} (m : M A) (same : A -> Prop) : Prop :=
  forall st a st', m st = Ok (a, st') ->
    grew st st' /\ (groups st' = groups st -> same a /\ st' = st).

(** *** The tree without its removable markers *)

(** A kept child against the scanned child it comes from: all but the
    tail is the same. *)
Definition same_inside (c k : Element) : Prop :=
  tag k = tag c /\ attrib k = attrib c /\ text k = text c /\
  children k = children c.

Section Pruned.
Variable int : pystr -> res Z.

(** The tags and attributes of a tree once the removable markers below
    its root are taken out, each with what it contains. *)
Fixpoint pruned_shape (e : Element) : shape (string * list (string * pystr)) :=
  Node (tag e, attrib e)
    (flat_map (fun c => if removable int c then [] else [pruned_shape c])
       (children e)).

(** A scanned child against the child of the input. *)
Definition scanned_from (c c2 : Element) : Prop :=
  tag c2 = tag c /\ attrib c2 = attrib c /\
  shape_of tag_attrib c2 = pruned_shape c.

End Pruned.

(** *** Runs of the archive plumbing with their outcomes *)

(** A library call with the outcome the environment gave it. *)
Inductive event : Type := Event (R : Type) (c : call R) (r : res R).
Arguments Event {R} c r.

(** A program run against an environment, as [run], with the outcome of
    every call in the log. *)
Fixpoint run_log {W A} (answer : forall R, call R -> W -> res R * W)
  (m : prog A) (w : W) : list event * res A * W :=
  match m with
  | Return a => ([], Ok a, w)
  | Throw e => ([], Raise e, w)
  | Call c k =>
      let '(r, w1) := answer _ c w in
      let '(l, out, w2) := run_log answer (k r) w1 in
      (Event c r :: l, out, w2)
  end.

(** The loop [for item in zin.infolist()] of [fix_docx] / [fix_odt],
    with the accumulated [tg], [tc] and [after]. *)
Definition archive_loop (entry : pystr)
  (fix_xml : bytes -> res (bytes * Z * Z)) (plain : bytes -> res pystr)
  (zin zout : Z) (before : pystr)
  : list ZipInfo -> Z * Z * pystr -> prog (Z * Z * pystr * pystr) :=
  fix loop (items : list ZipInfo) (acc : Z * Z * pystr)
    : prog (Z * Z * pystr * pystr) :=
    match items with
    | [] => let '(tg, tc, after) := acc in Return (tg, tc, before, after)
    | item :: rest =>
        (data <- do_call (ZipRead zin (filename item)) ;;
         '(data', acc') <-
           (if pystr_eqb (filename item) entry then
              '(data', g, c) <- of_res (fix_xml data) ;;
              after <- of_res (plain data') ;;
              let '(tg, tc, _) := acc in
              Return (data', (tg + g, tc + c, after))
            else Return (data, acc)) ;;
         _ <- do_call (ZipWritestr zout item data') ;;
         loop rest acc')%prog
    end.

(** The calls that only read or write an open archive. *)
Definition zip_event (ev : event) : Prop :=
  match ev with
  | Event c _ =>
      match c with
      | ZipOpen _ _ | ZipClose _ | ZipRead _ _ | ZipInfolist _
      | ZipWritestr _ _ _ => True
      | _ => False
      end
  end.

(** What [fix_docx] / [fix_odt] may do once the temporary file [tmp]
    exists: open [inp] for reading and [tmp] for writing, move [tmp] to
    [out], and ask about or delete [tmp]. *)
Definition allowed (inp out tmp : pystr) (ev : event) : Prop :=
  match ev with
  | Event c _ =>
      match c with
      | Mkstemp _ => False
      | ZipOpen p ModeRead => p = inp
      | ZipOpen p ModeWriteDeflated => p = tmp
      | ShutilMove s d => s = tmp /\ d = out
      | PathExists p => p = tmp
      | Unlink p => p = tmp
      | _ => True
      end
  end.

(** Every event of every run of [m] satisfies [P]. *)
Definition always {A} (P : event -> Prop) (m : prog A) : Prop :=
  forall W (answer : forall R, call R -> W -> res R * W) (w : W),
    Forall P (fst (fst (run_log answer m w))).

(** The two [with] blocks of [fix_docx] / [fix_odt], for the temporary
    file [tmp]. *)
Definition archive_copy (entry : pystr)
  (fix_xml : bytes -> res (bytes * Z * Z)) (plain : bytes -> res pystr)
  (inp tmp : pystr) : prog (Z * Z * pystr * pystr) :=
  with_zip inp ModeRead (fun zin =>
    doc <- do_call (ZipRead zin entry) ;;
    before <- of_res (plain doc) ;;
    with_zip tmp ModeWriteDeflated (fun zout =>
      items <- do_call (ZipInfolist zin) ;;
      archive_loop entry fix_xml plain zin zout before items (0, 0, [])))%prog.

(** The [except] clause. *)
Definition archive_cleanup (tmp : pystr) (e : exn) : prog fix_result :=
  (ex <- do_call (PathExists tmp) ;;
   _ <- (if ex : bool then do_call (Unlink tmp) else Return tt) ;;
   Throw e)%prog.

(** The name and the bytes of a successful [zin.read(name)]. *)
Definition read_of (ev : event) : option (pystr * bytes) :=
  match ev with
  | Event c r =>
      match c in call R return res R -> option (pystr * bytes) with
      | ZipRead _ name =>
          fun r => match r with Ok d => Some (name, d) | Raise _ => None end
      | _ => fun _ => None
      end r
  end.

(** The entry and the bytes of a [zout.writestr(item, data)]. *)
Definition write_of (ev : event) : option (ZipInfo * bytes) :=
  match ev with
  | Event c _ =>
      match c with
      | ZipWritestr _ item data => Some (item, data)
      | _ => None
      end
  end.

(** How the bytes written for [item] come from the bytes read for it:
    the entry [entry] goes through [fix_xml], every other one is copied. *)
Definition written_from (entry : pystr)
  (fix_xml : bytes -> res (bytes * Z * Z))
  (item : ZipInfo) (read written : bytes) : Prop :=
  if pystr_eqb (filename item) entry
  then exists g c, fix_xml read = Ok (written, g, c)
  else written = read.

(** In a log that follows the event [prev], every [writestr] comes right
    after a successful read of the same name, with bytes related by
    [rel]. *)
Fixpoint passes (rel : ZipInfo -> bytes -> bytes -> Prop)
  (prev : option event) (log : list event) : Prop :=
  match log with
  | [] => True
  | ev :: rest =>
      match write_of ev with
      | Some (item, data) =>
          exists p d0, prev = Some p /\
                       read_of p = Some (filename item, d0) /\
                       rel item d0 data
      | None => True
      end /\ passes rel (Some ev) rest
  end.

Definition passes_all {A} (rel : ZipInfo -> bytes -> bytes -> Prop)
  (m : prog A) : Prop :=
  forall prev W (answer : forall R, call R -> W -> res R * W) (w : W),
    passes rel prev (fst (fst (run_log answer m w))).

(** *** Sample environments *)

(** An environment in which every call succeeds: the archive opened has
    the two entries "content.xml" and "mimetype", every entry read holds
    the bytes [x01; x02], and the temporary file is "t". *)
Definition two_entries (R : Type) (c : call R) (w : unit) : res R * unit :=
  match c in call R return res R * unit with
  | Mkstemp _ => (Ok (3, lit "t"), w)
  | OsClose _ => (Ok tt, w)
  | ZipOpen _ _ => (Ok 4, w)
  | ZipClose _ => (Ok tt, w)
  | ZipRead _ _ => (Ok [x01; x02], w)
  | ZipInfolist _ =>
      (Ok [mkZipInfo (lit "content.xml") 0; mkZipInfo (lit "mimetype") 1], w)
  | ZipWritestr _ _ _ => (Ok tt, w)
  | ShutilMove _ _ => (Ok tt, w)
  | PathExists _ => (Ok false, w)
  | Unlink _ => (Ok tt, w)
  end.

(** A stand-in for the XML library that knows two documents: the bytes
    [x00] parse to [first], all other bytes to [second], and every tree is
    printed as [x01]. *)
Definition parse_two (first second : Element) (b : bytes) : res Element :=
  match b with
  | [x00] => Ok first
  | _ => Ok second
  end.

Definition print_one (_ : Element) : bytes := [x01].


(* ================================================================== *)
(** * Properties *)

(** ** Strings and the substitution *)

Lemma pystr_eqb_eq a b : pystr_eqb a b = true <-> a = b.
Proof.
  unfold pystr_eqb. destruct (list_eq_dec N.eq_dec a b); split; congruence.
Qed.

Lemma pystr_eqb_refl a : pystr_eqb a a = true.
Proof. now apply pystr_eqb_eq. Qed.

Lemma segments_cons c r :
  exists seg rest, segments (c :: r) = (c :: seg) :: rest.
Proof.
  simpl. destruct (segments r) as [|[|d seg] rest]; eauto.
  destruct (Bool.eqb _ _); eauto.
Qed.

Lemma segments_homogeneous s :
  Forall (fun seg => homogeneous seg = true) (segments s).
Proof.
  induction s as [|c r IH]; simpl; [constructor|].
  destruct (segments r) as [|[|d seg] rest] eqn:E.
  - repeat constructor.
  - repeat constructor.
  - inversion IH as [|? ? Hd Hrest]; subst.
    destruct (Bool.eqb (is_space_char c) (is_space_char d)) eqn:Ecd.
    + constructor; [|assumption]. simpl in *.
      apply eqb_prop in Ecd.
      rewrite Ecd at 1. rewrite eqb_reflx. simpl.
      rewrite forallb_forall in *. intros x Hx. rewrite Ecd. auto.
    + constructor; [reflexivity|]. constructor; assumption.
Qed.

Lemma segments_concat s : List.concat (segments s) = s.
Proof.
  induction s as [|c r IH]; [reflexivity|].
  destruct r as [|d r']; [reflexivity|].
  destruct (segments_cons d r') as (seg & rest & E).
  cbn [segments]. cbn [segments] in E, IH. rewrite E in *.
  destruct (Bool.eqb _ _); simpl in *; now rewrite IH.
Qed.

Lemma segments_alternating s : alternating (segments s) = true.
Proof.
  induction s as [|c r IH]; simpl; [reflexivity|].
  destruct (segments r) as [|[|d seg] rest] eqn:E; try reflexivity.
  destruct (Bool.eqb (is_space_char c) (is_space_char d)) eqn:Ecd.
  - apply eqb_prop in Ecd. simpl in *. now rewrite Ecd.
  - simpl in *. rewrite Ecd. simpl. exact IH.
Qed.

Lemma is_space_run_homogeneous d t :
  homogeneous (d :: t) = true ->
  is_space_run (d :: t)
  = is_space_char d && negb (match t with [] => true | _ => false end).
Proof.
  unfold is_space_run, len. simpl. intros H.
  destruct (is_space_char d) eqn:Ed; simpl; [|reflexivity].
  assert (forallb is_space_char t = true) as ->.
  { rewrite forallb_forall in *. intros x Hx. specialize (H x Hx).
    apply eqb_prop in H. congruence. }
  destruct t; simpl; [reflexivity|].
  apply Z.leb_le. lia.
Qed.

Lemma spec_subn_cons seg rest :
  spec_subn (seg :: rest) =
  (collapse_segment seg ++ fst (spec_subn rest),
   snd (spec_subn rest) + (if is_space_run seg then 1 else 0)).
Proof.
  unfold spec_subn. cbn [map filter List.concat fst snd].
  destruct (is_space_run seg); f_equal; cbn [List.length]; lia.
Qed.

Lemma subn_from_segments s :
  subn_from false s = spec_subn (segments s) /\
  subn_from true s =
    match segments s with
    | seg :: rest => if starts_with_space seg then spec_subn rest
                     else spec_subn (seg :: rest)
    | [] => ([], 0)
    end.
Proof.
  induction s as [|c r [IHf IHt]]; [split; reflexivity|].
  pose proof (segments_homogeneous (c :: r)) as Hh.
  pose proof (segments_homogeneous r) as Hr.
  cbn [subn_from]. cbn [segments] in *.
  destruct r as [|d r'].
  - simpl. unfold spec_subn, collapse_segment, is_space_run, len. simpl.
    destruct (is_space_char c); simpl; split; reflexivity.
  - destruct (segments_cons d r') as (seg & rest & E). rewrite E in *.
    cbn [starts_with_space] in *.
    inversion Hr as [|? ? Hd _]; subst. clear Hr.
    rewrite IHf, IHt. clear IHf IHt.
    destruct (is_space_char c) eqn:Ec, (is_space_char d) eqn:Ed;
      cbn [Bool.eqb] in *; cbn [starts_with_space]; rewrite ?Ec, ?Ed;
      inversion Hh as [|? ? Hc _]; subst; clear Hh;
      rewrite !spec_subn_cons; unfold collapse_segment;
      rewrite ?(is_space_run_homogeneous _ _ Hc), ?(is_space_run_homogeneous _ _ Hd),
        ?Ec, ?Ed; cbn [andb negb fst snd app];
      destruct (spec_subn rest) as [o n]; cbn [fst snd];
      split; try reflexivity; (apply f_equal2; [reflexivity | lia]).
Qed.

Lemma EXTRA_SPACE_subn_segments s :
  EXTRA_SPACE_subn s = spec_subn (segments s).
Proof. apply subn_from_segments. Qed.

Lemma len_app a b : len (a ++ b) = len a + len b.
Proof. unfold len. rewrite length_app. lia. Qed.

Lemma is_space_run_len seg : is_space_run seg = true -> 2 <= len seg.
Proof.
  unfold is_space_run. intros H. apply andb_prop in H as [_ H].
  now apply Z.leb_le.
Qed.

Lemma removed_by_runs segs :
  len (List.concat segs) - len (List.concat (map collapse_segment segs)) =
  sum_Z (map (fun run => len run - 1) (filter is_space_run segs)).
Proof.
  induction segs as [|seg rest IH]; [reflexivity|].
  cbn [List.concat map filter]. rewrite !len_app.
  unfold collapse_segment at 1.
  set (S := sum_Z (map (fun run => len run - 1) (filter is_space_run rest))) in *.
  destruct (is_space_run seg).
  - change (sum_Z (map (fun run => len run - 1) (seg :: filter is_space_run rest)))
      with (len seg - 1 + S).
    change (len [32%N]) with 1. lia.
  - fold S. lia.
Qed.

Lemma sum_runs_lower segs :
  Z.of_nat (List.length (filter is_space_run segs)) <=
  sum_Z (map (fun run => len run - 1) (filter is_space_run segs)).
Proof.
  induction segs as [|seg rest IH]; [reflexivity|].
  cbn [filter]. destruct (is_space_run seg) eqn:E; [|assumption].
  change (sum_Z (map (fun run => len run - 1) (seg :: filter is_space_run rest)))
    with (len seg - 1 + sum_Z (map (fun run => len run - 1) (filter is_space_run rest))).
  cbn [List.length]. apply is_space_run_len in E. lia.
Qed.

Lemma no_runs_unchanged segs :
  filter is_space_run segs = [] -> map collapse_segment segs = segs.
Proof.
  induction segs as [|seg rest IH]; [reflexivity|].
  cbn [filter map]. unfold collapse_segment at 1.
  destruct (is_space_run seg); [discriminate|].
  intros H. now rewrite IH.
Qed.

Lemma subn_zero_unchanged s :
  snd (EXTRA_SPACE_subn s) = 0 -> fst (EXTRA_SPACE_subn s) = s.
Proof.
  rewrite EXTRA_SPACE_subn_segments. cbn [spec_subn fst snd]. intros H.
  rewrite no_runs_unchanged; [apply segments_concat|].
  destruct (filter is_space_run (segments s)); [reflexivity|].
  cbn [List.length] in H. lia.
Qed.

Lemma subn_removed s :
  len s - len (fst (EXTRA_SPACE_subn s)) =
  sum_Z (map (fun run => len run - 1) (space_runs s)).
Proof.
  rewrite EXTRA_SPACE_subn_segments. cbn [spec_subn fst]. unfold space_runs.
  rewrite <- removed_by_runs, segments_concat. reflexivity.
Qed.

Lemma subn_changed_shorter s :
  snd (EXTRA_SPACE_subn s) <> 0 -> len (fst (EXTRA_SPACE_subn s)) < len s.
Proof.
  intros H. pose proof (subn_removed s) as R.
  pose proof (sum_runs_lower (segments s)) as L.
  rewrite EXTRA_SPACE_subn_segments in H. cbn [spec_subn snd] in H.
  unfold space_runs in R. lia.
Qed.

Lemma subn_changed_iff s :
  snd (EXTRA_SPACE_subn s) <> 0 <-> fst (EXTRA_SPACE_subn s) <> s.
Proof.
  split.
  - intros H E. apply subn_changed_shorter in H. rewrite E in H. lia.
  - intros H E. apply H. now apply subn_zero_unchanged.
Qed.

(** *** Strings without a run *)

Lemma subn_from_head s :
  starts_with_space (fst (subn_from true s)) = false /\
  starts_with_space (fst (subn_from false s)) = starts_with_space s.
Proof.
  induction s as [|c r [IHt IHf]]; [split; reflexivity|].
  cbn [subn_from starts_with_space].
  destruct (is_space_char c) eqn:Ec.
  - split; [assumption|].
    destruct (starts_with_space r).
    + destruct (subn_from true r). reflexivity.
    + destruct (subn_from false r). simpl. assumption.
  - destruct (subn_from false r). simpl. auto.
Qed.

Lemma subn_from_no_run s :
  no_run (fst (subn_from true s)) = true /\
  no_run (fst (subn_from false s)) = true.
Proof.
  induction s as [|c r [IHt IHf]]; [split; reflexivity|].
  cbn [subn_from].
  destruct (subn_from_head r) as [Ht Hf].
  destruct (is_space_char c) eqn:Ec.
  - split; [assumption|].
    destruct (starts_with_space r) eqn:Er.
    + destruct (subn_from true r) as [o n]. cbn [fst no_run] in *.
      rewrite Ht, IHt. now rewrite andb_false_r.
    + destruct (subn_from false r) as [o n]. cbn [fst no_run] in *.
      rewrite Hf, IHf. now rewrite andb_false_r.
  - destruct (subn_from false r) as [o n]. cbn [fst no_run] in *.
    rewrite Ec, IHf. auto.
Qed.

Lemma subn_no_run s : no_run (fst (EXTRA_SPACE_subn s)) = true.
Proof. apply subn_from_no_run. Qed.

Lemma no_run_subn s : no_run s = true -> EXTRA_SPACE_subn s = (s, 0).
Proof.
  unfold EXTRA_SPACE_subn.
  induction s as [|c r IH]; [reflexivity|].
  cbn [no_run subn_from]. intros H. apply andb_prop in H as [H1 H2].
  rewrite (IH H2).
  destruct (is_space_char c); [|reflexivity].
  destruct (starts_with_space r); [discriminate|reflexivity].
Qed.

Lemma bump_0 st : bump 0 0 st = st.
Proof. destruct st as [g c]. unfold bump. simpl. f_equal; lia. Qed.

Lemma collapse_Some s st :
  collapse (Some s) st =
  (Some (fst (EXTRA_SPACE_subn s)),
   bump (snd (EXTRA_SPACE_subn s))
     (len s - len (fst (EXTRA_SPACE_subn s))) st).
Proof.
  unfold collapse. destruct s as [|c r].
  - simpl. now rewrite bump_0.
  - cbn [truthy or_empty].
    destruct (EXTRA_SPACE_subn (c :: r)) as [fixed n] eqn:E. cbn [fst snd].
    destruct (Z.eqb_spec n 0) as [->|Hn]; [|reflexivity].
    pose proof (subn_zero_unchanged (c :: r)) as U. rewrite E in U.
    cbn [fst snd] in U. rewrite (U eq_refl), Z.sub_diag. now rewrite bump_0.
Qed.

(** C3. The substitution behind [EXTRA_SPACE] works on the maximal blocks
    of its input ([segments]: they concatenate to the input, each is all
    inside or all outside the class of space and no-break space, and
    neighbours differ in kind).  Every block of two or more characters of
    the class becomes one ASCII space and every other block, a single
    space or no-break space included, is kept; the number of
    substitutions is the number of such runs and the characters
    eliminated are the sum over the runs of (length - 1).  [collapse]
    returns an absent or empty string as it is and leaves the counters
    alone, and otherwise adds these two numbers to them. *)
Theorem C3_space_run_collapser (s : pystr) :
  let segs := segments s in
  List.concat segs = s /\
  Forall (fun seg => homogeneous seg = true) segs /\
  alternating segs = true /\
  fst (EXTRA_SPACE_subn s) =
    List.concat (map (fun seg => if is_space_run seg then [32%N] else seg) segs) /\
  snd (EXTRA_SPACE_subn s) = Z.of_nat (List.length (space_runs s)) /\
  len s - len (fst (EXTRA_SPACE_subn s)) =
    sum_Z (map (fun run => len run - 1) (space_runs s)) /\
  EXTRA_SPACE_subn [] = ([], 0) /\
  (forall st, collapse None st = (None, st)) /\
  (forall st, collapse (Some []) st = (Some [], st)) /\
  (forall st,
     collapse (Some s) st =
     (Some (fst (EXTRA_SPACE_subn s)),
      mkStats (groups st + Z.of_nat (List.length (space_runs s)))
        (chars st + sum_Z (map (fun run => len run - 1) (space_runs s))))).
Proof.
  cbv zeta.
  assert (Hn : snd (EXTRA_SPACE_subn s) = Z.of_nat (List.length (space_runs s)))
    by (rewrite EXTRA_SPACE_subn_segments; reflexivity).
  repeat split.
  - apply segments_concat.
  - apply segments_homogeneous.
  - apply segments_alternating.
  - rewrite EXTRA_SPACE_subn_segments. reflexivity.
  - exact Hn.
  - apply subn_removed.
  - intros st. rewrite collapse_Some, subn_removed, Hn. reflexivity.
Qed.

(* ------------------------------------------------------------------ *)
(** ** The DOCX normaliser *)

Lemma fix_docx_element_eq e st :
  fix_docx_element e st =
  let '(e1, st1) := if String.eqb (tag e) W_T then fix_wt e st else (e, st) in
  let '(cs, st2) := map_state fix_docx_element (children e) st1 in
  (set_children e1 cs, st2).
Proof. destruct e; reflexivity. Qed.

Lemma truthy_false_or_empty t : truthy t = false -> or_empty t = [].
Proof. destruct t as [[|]|]; simpl; congruence. Qed.

Lemma subn_n0_clean s : snd (EXTRA_SPACE_subn s) = 0 -> no_run s = true.
Proof.
  intros H. rewrite <- (subn_zero_unchanged s H) at 1. apply subn_no_run.
Qed.

(** What [fix_wt] leaves in each field. *)
Lemma fix_wt_fields wt st :
  let wt' := fst (fix_wt wt st) in
  tag wt' = tag wt /\ children wt' = children wt /\
  attrib wt' = (if flag_condition wt
                then attr_set XML_SPACE (lit "preserve") (attrib wt)
                else attrib wt) /\
  clean (text wt') = true /\ clean (tail wt') = true.
Proof.
  unfold fix_wt, flag_condition, text_changed, clean.
  destruct (truthy (text wt)) eqn:Tx.
  - destruct (EXTRA_SPACE_subn (or_empty (text wt))) as [fixed n] eqn:E.
    pose proof (subn_changed_iff (or_empty (text wt))) as Ch.
    pose proof (subn_no_run (or_empty (text wt))) as Nr.
    pose proof (subn_n0_clean (or_empty (text wt))) as N0.
    rewrite E in Ch, Nr, N0. cbn [fst snd] in *.
    destruct (Z.eqb_spec n 0) as [->|Hn].
    + assert (fixed = or_empty (text wt)) as ->.
      { destruct (list_eq_dec N.eq_dec fixed (or_empty (text wt))); [assumption|].
        exfalso. now apply Ch. }
      rewrite pystr_eqb_refl. cbn [negb andb].
      destruct (truthy (tail wt)) eqn:Tl.
      * destruct (EXTRA_SPACE_subn (or_empty (tail wt))) as [f2 n2] eqn:E2.
        pose proof (subn_no_run (or_empty (tail wt))) as Nr2.
        pose proof (subn_n0_clean (or_empty (tail wt))) as N02.
        rewrite E2 in Nr2, N02. cbn [fst snd] in *.
        destruct (Z.eqb_spec n2 0) as [->|Hn2]; cbn; auto 10.
      * cbn. rewrite (truthy_false_or_empty _ Tl). auto 10.
    + assert (pystr_eqb fixed (or_empty (text wt)) = false) as ->.
      { destruct (pystr_eqb fixed (or_empty (text wt))) eqn:Q; [|reflexivity].
        apply pystr_eqb_eq in Q. apply Ch in Hn. contradiction. }
      cbn [negb andb].
      destruct (needs_preserve fixed);
      (destruct (truthy (tail wt)) eqn:Tl;
       [ destruct (EXTRA_SPACE_subn (or_empty (tail wt))) as [f2 n2] eqn:E2;
         pose proof (subn_no_run (or_empty (tail wt))) as Nr2;
         pose proof (subn_n0_clean (or_empty (tail wt))) as N02;
         rewrite E2 in Nr2, N02; cbn [fst snd] in *;
         cbn; rewrite ?Tl, ?E2;
         destruct (Z.eqb_spec n2 0) as [->|Hn2]; cbn; auto 10
       | cbn; rewrite ?Tl; cbn; rewrite (truthy_false_or_empty _ Tl); auto 10 ]).
  - rewrite (truthy_false_or_empty _ Tx). cbn.
    destruct (truthy (tail wt)) eqn:Tl.
    + destruct (EXTRA_SPACE_subn (or_empty (tail wt))) as [f2 n2] eqn:E2.
      pose proof (subn_no_run (or_empty (tail wt))) as Nr2.
      pose proof (subn_n0_clean (or_empty (tail wt))) as N02.
      rewrite E2 in Nr2, N02. cbn [fst snd] in *.
      destruct (Z.eqb_spec n2 0) as [->|Hn2]; cbn;
        rewrite ?(truthy_false_or_empty _ Tx); auto 10.
    + cbn. rewrite (truthy_false_or_empty _ Tx), (truthy_false_or_empty _ Tl). auto 10.
Qed.

Lemma clean_subn t :
  clean t = true -> EXTRA_SPACE_subn (or_empty t) = (or_empty t, 0).
Proof. apply no_run_subn. Qed.

Lemma fix_wt_clean_id wt st :
  clean (text wt) = true -> clean (tail wt) = true -> fix_wt wt st = (wt, st).
Proof.
  intros Hx Hl. unfold fix_wt.
  rewrite (clean_subn _ Hx). cbn [Z.eqb].
  assert ((if truthy (text wt) then (wt, st) else (wt, st)) = (wt, st)) as ->
    by (destruct (truthy (text wt)); reflexivity).
  rewrite (clean_subn _ Hl). cbn [Z.eqb].
  destruct (truthy (tail wt)); reflexivity.
Qed.

Lemma map_state_id {A S} (f : A -> S -> A * S) l :
  Forall (fun x => forall st, f x st = (x, st)) l ->
  forall st, map_state f l st = (l, st).
Proof.
  induction 1 as [|x r Hx _ IH]; intros st; [reflexivity|].
  cbn [map_state]. rewrite Hx. fold (map_state f). rewrite IH. reflexivity.
Qed.

Lemma map_state_Forall {A B S} (f : A -> S -> B * S) (P : B -> Prop) l :
  Forall (fun x => forall st, P (fst (f x st))) l ->
  forall st, Forall P (fst (map_state f l st)).
Proof.
  induction 1 as [|x r Hx _ IH]; intros st; [constructor|].
  cbn [map_state]. specialize (Hx st). destruct (f x st) as [y st1].
  fold (map_state f). specialize (IH st1).
  destruct (map_state f r st1) as [ys st2]. constructor; assumption.
Qed.

Lemma map_state_nth {A B S} (f : A -> S -> B * S) l :
  forall i x st, nth_error l i = Some x ->
  exists st1, nth_error (fst (map_state f l st)) i = Some (fst (f x st1)).
Proof.
  induction l as [|y r IH]; intros [|i] x st H; try discriminate.
  - injection H as ->. exists st. cbn [map_state].
    destruct (f x st) as [z st1]. fold (map_state f).
    destruct (map_state f r st1). reflexivity.
  - cbn [map_state]. destruct (f y st) as [z st1]. fold (map_state f).
    destruct (IH i x st1 H) as [st2 E]. exists st2.
    destruct (map_state f r st1). exact E.
Qed.

Lemma docx_clean_eq e :
  docx_clean e =
  (if String.eqb (tag e) W_T then clean (text e) && clean (tail e) else true)
  && forallb docx_clean (children e).
Proof. destruct e; reflexivity. Qed.

Lemma fix_docx_element_clean e :
  forall st, docx_clean (fst (fix_docx_element e st)) = true.
Proof.
  induction e as [tg a tx tl cs IH] using Element_ind. intros st.
  rewrite fix_docx_element_eq.
  set (e := mkElement tg a tx tl cs) in *.
  pose proof (fix_wt_fields e st) as F. cbv zeta in F.
  assert (Hcs : forall st1, forallb docx_clean
                  (fst (map_state fix_docx_element (children e) st1)) = true).
  { intros st1. apply forallb_forall. apply Forall_forall.
    apply map_state_Forall. exact IH. }
  destruct (String.eqb (tag e) W_T) eqn:Tg.
  - destruct (fix_wt e st) as [e1 st1]. cbn [fst] in F.
    destruct F as (Ft & _ & _ & Fx & Fl).
    specialize (Hcs st1).
    destruct (map_state fix_docx_element (children e) st1) as [cs' st2].
    cbn [fst] in *. rewrite docx_clean_eq. cbn [set_children tag text tail children].
    rewrite Ft, Tg, Fx, Fl, Hcs. reflexivity.
  - specialize (Hcs st).
    destruct (map_state fix_docx_element (children e) st) as [cs' st2].
    cbn [fst] in *. rewrite docx_clean_eq. cbn [set_children tag text tail children].
    rewrite Tg, Hcs. reflexivity.
Qed.

Lemma fix_docx_element_clean_id e :
  docx_clean e = true -> forall st, fix_docx_element e st = (e, st).
Proof.
  induction e as [tg a tx tl cs IH] using Element_ind. intros C st.
  rewrite fix_docx_element_eq.
  set (e := mkElement tg a tx tl cs) in *.
  rewrite docx_clean_eq in C. apply andb_prop in C as [C1 C2].
  assert (Hcs : forall st1, map_state fix_docx_element (children e) st1 = (children e, st1)).
  { apply map_state_id. cbn [children e]. rewrite forallb_forall in C2.
    rewrite Forall_forall in *. intros c Hc. apply IH; auto. }
  destruct (String.eqb (tag e) W_T).
  - apply andb_prop in C1 as [Cx Cl]. rewrite (fix_wt_clean_id e st Cx Cl).
    rewrite Hcs. reflexivity.
  - rewrite Hcs. reflexivity.
Qed.

Lemma subtree_fix_docx path :
  forall root st n, subtree root path = Some n ->
  exists st1, subtree (fst (fix_docx_element root st)) path
              = Some (fst (fix_docx_element n st1)).
Proof.
  induction path as [|i r IH]; intros root st n H.
  - injection H as ->. exists st. reflexivity.
  - cbn [subtree] in H.
    destruct (nth_error (children root) i) as [c|] eqn:Ec; [|discriminate].
    rewrite fix_docx_element_eq.
    destruct (if String.eqb (tag root) W_T then fix_wt root st else (root, st))
      as [e1 st1].
    destruct (map_state_nth fix_docx_element (children root) i c st1 Ec) as [st2 E2].
    destruct (IH c st2 n H) as [st3 E3]. exists st3.
    destruct (map_state fix_docx_element (children root) st1) as [cs' st4].
    cbn [fst subtree set_children children] in *. rewrite E2. exact E3.
Qed.

Lemma fix_docx_element_wt wt st :
  tag wt = W_T ->
  attrib (fst (fix_docx_element wt st)) =
  (if flag_condition wt
   then attr_set XML_SPACE (lit "preserve") (attrib wt) else attrib wt).
Proof.
  intros Tg. rewrite fix_docx_element_eq, Tg, String.eqb_refl.
  pose proof (fix_wt_fields wt st) as F. cbv zeta in F.
  destruct (fix_wt wt st) as [e1 st1].
  destruct (map_state fix_docx_element (children wt) st1).
  cbn [fst set_children attrib] in *. apply F.
Qed.

Lemma attr_get_set k v a : attr_get k (attr_set k v a) = Some v.
Proof.
  induction a as [|[k' v'] r IH]; cbn.
  - now rewrite String.eqb_refl.
  - destruct (String.eqb k k') eqn:E; cbn.
    + now rewrite String.eqb_refl.
    + now rewrite E.
Qed.

Lemma docx_idempotent root :
  fix_docx_tree (fst (fst (fix_docx_tree root)))
  = (fst (fst (fix_docx_tree root)), 0, 0).
Proof.
  unfold fix_docx_tree.
  pose proof (fix_docx_element_clean root stats0) as C.
  destruct (fix_docx_element root stats0) as [root' st]. cbn [fst] in *.
  rewrite (fix_docx_element_clean_id root' C). reflexivity.
Qed.

(** C6. In the DOCX normaliser, take any [w:t] element [wt] of the tree,
    at any depth.  After the pass the element at the same place carries
    the attribute [xml:space="preserve"] set by the pass exactly when
    collapsing changed the text of [wt] and the collapsed text differs
    from its stripped form ([flag_condition]); otherwise its attributes
    are those of [wt].  The condition does not look at the tail, so a
    change of the tail alone never sets the flag. *)
Theorem C6_preserve_flag root path wt st :
  subtree root path = Some wt ->
  tag wt = W_T ->
  exists wt',
    subtree (fst (fix_docx_element root st)) path = Some wt' /\
    (flag_condition wt = true ->
       attrib wt' = attr_set XML_SPACE (lit "preserve") (attrib wt) /\
       attr_get XML_SPACE (attrib wt') = Some (lit "preserve")) /\
    (flag_condition wt = false -> attrib wt' = attrib wt) /\
    (forall t, flag_condition (set_tail wt t) = flag_condition wt).
Proof.
  intros H Tg. destruct (subtree_fix_docx path root st wt H) as [st1 E].
  eexists. split; [exact E|].
  rewrite (fix_docx_element_wt wt st1 Tg).
  split; [|split].
  - intros ->. split; [reflexivity|apply attr_get_set].
  - intros ->. reflexivity.
  - reflexivity.
Qed.

(** A run [w:r] holding two [w:t] elements: the collapsed text of the
    first ends with a space, the second changes in its tail only. *)
Lemma witness_C6 :
  let wt1 := mkElement W_T [] (Some (lit "to  be ")) None [] in
  let wt2 := mkElement W_T [] (Some (lit "or not")) (Some (lit "   ")) [] in
  let root := mkElement W_P [] None None [mkElement "r" [] None None [wt1; wt2]] in
  (subtree root [0; 0]%nat = Some wt1 /\ flag_condition wt1 = true /\
   exists wt',
     subtree (fst (fix_docx_element root stats0)) [0; 0]%nat = Some wt' /\
     attrib wt' = [(XML_SPACE, lit "preserve")]) /\
  (subtree root [0; 1]%nat = Some wt2 /\ flag_condition wt2 = false /\
   exists wt',
     subtree (fst (fix_docx_element root stats0)) [0; 1]%nat = Some wt' /\
     attrib wt' = [] /\ tail wt' = Some (lit " ")).
Proof.
  intros wt1 wt2 root. split.
  - split; [reflexivity|]. split; [reflexivity|].
    destruct (C6_preserve_flag root [0; 0]%nat wt1 stats0 eq_refl eq_refl)
      as (wt' & E & Hset & _ & _).
    exists wt'. split; [exact E|]. exact (proj1 (Hset eq_refl)).
  - split; [reflexivity|]. split; [reflexivity|].
    destruct (C6_preserve_flag root [0; 1]%nat wt2 stats0 eq_refl eq_refl)
      as (wt' & E & _ & Hkeep & _).
    exists wt'. split; [exact E|]. split; [exact (Hkeep eq_refl)|].
    vm_compute in E. injection E as <-. reflexivity.
Defined.

(* ------------------------------------------------------------------ *)
(** ** The ODT normaliser *)

Lemma bind_Ok {A B} (m : M A) (k : A -> M B) st r :
  bind m k st = Ok r ->
  exists a st1, m st = Ok (a, st1) /\ k a st1 = Ok r.
Proof.
  unfold bind. destruct (m st) as [[a st1]|e]; [eauto|discriminate].
Qed.

Lemma collapse_clean t st : clean (fst (collapse t st)) = true.
Proof.
  unfold collapse, clean. destruct (truthy t) eqn:T.
  - pose proof (subn_no_run (or_empty t)) as H.
    destruct (EXTRA_SPACE_subn (or_empty t)). exact H.
  - cbn [fst]. now rewrite (truthy_false_or_empty _ T).
Qed.

Lemma collapse_clean_id t st : clean t = true -> collapse t st = (t, st).
Proof.
  intros C. unfold collapse. destruct (truthy t) eqn:T; [|reflexivity].
  rewrite (clean_subn _ C). cbn [Z.eqb].
  destruct t as [[|c r]|]; try discriminate. reflexivity.
Qed.

Lemma collapseM_Ok t st :
  collapseM t st = Ok (fst (collapse t st), snd (collapse t st)).
Proof. unfold collapseM. now destruct (collapse t st). Qed.

Section OdtProps.
Variable int : pystr -> res Z.

Lemma fix_element_eq parent :
  fix_element int parent =
  (ptext <- collapseM (text parent) ;;
   '(cs, to_remove) <- scan_children int (fix_element int) 0 (children parent) ;;
   '(ptext', cs') <- remove_pass (ptext, cs) (rev to_remove) ;;
   ret (mkElement (tag parent) (attrib parent) ptext' (tail parent) cs')).
Proof. destruct parent; reflexivity. Qed.

Lemma odt_normal_eq e :
  odt_normal int e =
  clean (text e)
  && forallb (fun c => odt_normal int c && kept_ok int c && clean (tail c))
       (children e).
Proof. destruct e; reflexivity. Qed.

Lemma scan_children_cons fe i child r :
  scan_children int fe i (child :: r) =
  (child1 <- fe child ;;
   '(child2, sched) <- inspect_child int i child1 ;;
   '(r', to_remove) <- scan_children int fe (S i) r ;;
   ret (child2 :: r', sched ++ to_remove)).
Proof. reflexivity. Qed.

Lemma kept_not_removable c : kept_ok int c = true -> removable int c = false.
Proof.
  unfold removable, kept_ok. destruct (String.eqb (tag c) T_S); [|reflexivity].
  destruct (repeat_count int c); [|discriminate]. simpl.
  now intros ->%negb_true_iff.
Qed.

(** What [inspect_child] returns. *)
Lemma inspect_child_Ok i c st c2 sched st2 :
  inspect_child int i c st = Ok ((c2, sched), st2) ->
  sched = entries int i [c2] /\
  tag c2 = tag c /\ attrib c2 = attrib c /\ text c2 = text c /\
  children c2 = children c /\
  (removable int c2 = true \/
   (kept_ok int c2 = true /\ clean (tail c2) = true)).
Proof.
  unfold inspect_child, entries, removable, kept_ok.
  destruct (String.eqb (tag c) T_S) eqn:Tg.
  - intros H. apply bind_Ok in H as (count & st1 & H1 & H).
    unfold liftR in H1.
    destruct (repeat_count int c) as [n|e] eqn:Rc; [|discriminate].
    injection H1 as -> ->.
    destruct (1 <? count) eqn:Gt.
    + injection H as <- <- <-. rewrite Tg, Rc, Gt. cbn.
      auto 10.
    + unfold bind, ret, collapseM in H.
      pose proof (collapse_clean (tail c) st1) as Cl.
      destruct (collapse (tail c) st1) as [t st3].
      injection H as <- <- <-.
      unfold repeat_count in *. cbn [set_tail tag attrib text tail children fst] in *.
      rewrite Tg, Rc, Gt, Cl. cbn. auto 10.
  - intros H. unfold bind, ret, collapseM in H.
    pose proof (collapse_clean (tail c) st) as Cl.
    destruct (collapse (tail c) st) as [t st3].
    injection H as <- <- <-. cbn [set_tail tag attrib text tail children fst] in *.
    rewrite Tg, Cl. cbn. auto 10.
Qed.

Lemma odt_normal_ext a b :
  text a = text b -> children a = children b ->
  odt_normal int a = odt_normal int b.
Proof. intros Hx Hc. rewrite !odt_normal_eq, Hx, Hc. reflexivity. Qed.

Lemma removable_ext a b :
  tag a = tag b -> attrib a = attrib b ->
  removable int a = removable int b.
Proof. unfold removable, repeat_count. now intros -> ->. Qed.

Lemma kept_ok_ext a b :
  tag a = tag b -> attrib a = attrib b -> kept_ok int a = kept_ok int b.
Proof. unfold kept_ok, repeat_count. now intros -> ->. Qed.

Lemma scan_children_Ok cs :
  Forall (fix_element_sound int) cs ->
  forall i st cs' rm st',
    scan_children int (fix_element int) i cs st = Ok ((cs', rm), st') ->
    rm = entries int i cs' /\ Forall (scanned int) cs' /\
    map tag_attrib cs' = map tag_attrib cs.
Proof.
  induction 1 as [|c r Hc _ IH]; intros i st cs' rm st' H.
  - injection H as <- <- <-. repeat split; constructor.
  - rewrite scan_children_cons in H.
    apply bind_Ok in H as (c1 & st1 & H1 & H).
    apply bind_Ok in H as ([c2 sched] & st2 & H2 & H).
    apply bind_Ok in H as ([r' rm'] & st3 & H3 & H).
    injection H as <- <- <-.
    apply Hc in H1 as (N1 & T1 & A1 & _).
    apply inspect_child_Ok in H2 as (-> & T2 & A2 & X2 & C2 & K2).
    apply IH in H3 as (-> & S3 & M3).
    repeat split.
    + cbn [entries]. now rewrite app_nil_r.
    + constructor; [|assumption]. split; [|assumption].
      now rewrite (odt_normal_ext c2 c1).
    + cbn [map]. unfold tag_attrib at 1 3. rewrite M3. congruence.
Qed.

Lemma remove_pass_app p l1 l2 st :
  remove_pass p (l1 ++ l2) st =
  match remove_pass p l1 st with
  | Ok (p', st1) => remove_pass p' l2 st1
  | Raise e => Raise e
  end.
Proof.
  revert p st. induction l1 as [|e r IH]; intros p st; [reflexivity|].
  cbn [remove_pass app]. unfold bind.
  destruct (remove_one p e st) as [[p' st1]|]; [apply IH|reflexivity].
Qed.

End OdtProps.

Lemma nth_error_mid {A} (pre : list A) x r :
  nth_error (pre ++ x :: r) (List.length pre) = Some x.
Proof. induction pre; [reflexivity|assumption]. Qed.

Lemma replace_nth_mid {A} (pre : list A) x y r :
  replace_nth (List.length pre) y (pre ++ x :: r) = pre ++ y :: r.
Proof. induction pre; [reflexivity|]. cbn. now f_equal. Qed.

Lemma remove_nth_mid {A} (pre : list A) x r :
  remove_nth (List.length pre) (pre ++ x :: r) = pre ++ r.
Proof. induction pre; [reflexivity|]. cbn. now f_equal. Qed.

Lemma splice_clean before tl st : clean (fst (splice before tl st)) = true.
Proof.
  unfold splice. destruct (collapse (Some (32%N :: tl)) st).
  apply collapse_clean.
Qed.

(** One removal at index 0: the parent's text takes the splice. *)
Lemma remove_one_first ptext m cs tl st :
  remove_one (ptext, m :: cs) (0%nat, tl) st =
  Ok ((fst (splice ptext tl st), cs), snd (splice ptext tl st)).
Proof.
  unfold remove_one, splice, bind, collapseM, ret. cbn [Nat.eqb].
  destruct (collapse (Some (32%N :: tl)) st) as [spt st1].
  destruct (collapse _ st1) as [t st2]. reflexivity.
Qed.

(** One removal at a later index: the tail of the sibling just before
    the marker takes the splice. *)
Lemma remove_one_later ptext pre0 prev m cs tl st :
  remove_one (ptext, pre0 ++ prev :: m :: cs) (S (List.length pre0), tl) st =
  Ok ((ptext,
       pre0 ++ set_tail prev (fst (splice (tail prev) tl st)) :: cs),
      snd (splice (tail prev) tl st)).
Proof.
  unfold remove_one, splice, bind, collapseM, ret, raise. cbn [Nat.eqb].
  destruct (collapse (Some (32%N :: tl)) st) as [spt st1].
  rewrite Nat.sub_succ, Nat.sub_0_r, nth_error_mid.
  destruct (collapse _ st1) as [t st2]. cbn [fst snd].
  rewrite replace_nth_mid.
  change (pre0 ++ set_tail prev t :: m :: cs)
    with (pre0 ++ [set_tail prev t] ++ m :: cs).
  rewrite app_assoc.
  replace (S (List.length pre0)) with (List.length (pre0 ++ [set_tail prev t]))
    by (rewrite length_app; cbn; lia).
  rewrite nth_error_mid, remove_nth_mid, <- app_assoc. reflexivity.
Qed.


Lemma prefix_rel_refl pt pre : prefix_rel pt pre pt pre.
Proof.
  destruct pre as [|x r] using rev_ind.
  - constructor. now left.
  - constructor. unfold same_but_tail. auto 10.
Qed.

Section OdtRemoval.
Variable int : pystr -> res Z.

Lemma kept_child_ext c c' :
  same_but_tail c c' -> odt_normal int c = true -> kept_ok int c = true ->
  clean (tail c) = true -> kept_child int c' = true.
Proof.
  intros (T & A & X & C & L) N K Cl. unfold kept_child.
  rewrite (odt_normal_ext int c' c X C), N, (kept_ok_ext int c' c T A), K.
  destruct L as [->| ->]; [now rewrite Cl|reflexivity].
Qed.

(** The removal pass over the entries of the children [cs] that follow
    a prefix [pre]: it never fails, it leaves of [cs] the children that
    are not removable, in order and fit to be kept, and before them it
    touches only the text slot that precedes [cs]. *)
Lemma remove_pass_entries cs :
  Forall (scanned int) cs ->
  forall pre pt st,
  exists pt' pre' kept st',
    remove_pass (pt, pre ++ cs) (rev (entries int (List.length pre) cs)) st
    = Ok ((pt', pre' ++ kept), st') /\
    prefix_rel pt pre pt' pre' /\
    forallb (kept_child int) kept = true /\
    map tag_attrib kept =
      map tag_attrib (filter (fun c => negb (removable int c)) cs).
Proof.
  induction 1 as [|c r [Nc Kc] _ IH]; intros pre pt st.
  - exists pt, pre, [], st. repeat split. apply prefix_rel_refl.
  - cbn [entries]. rewrite rev_app_distr, remove_pass_app.
    destruct (IH (pre ++ [c]) pt st) as (pt1 & pre1 & kept1 & st1 & E1 & R1 & F1 & M1).
    rewrite length_app, Nat.add_1_r, <- app_assoc in E1. cbn [app] in E1.
    rewrite E1. clear E1 IH.
    inversion R1 as [? ? Hnil|pre0 p p' Hs Hsnoc]; subst.
    { destruct pre; discriminate. }
    apply app_inj_tail in Hsnoc as [-> ->].
    rename p' into c1. rewrite <- app_assoc. cbn [app].
    cbn [filter].
    destruct (removable int c) eqn:Rm; cbn [negb rev app remove_pass].
    + (* the marker is removed, the slot before it takes the splice *)
      unfold bind.
      destruct pre as [|x pre'] using rev_ind.
      * cbn [app List.length]. rewrite remove_one_first.
        exists (fst (splice pt1 (or_empty (tail c)) st1)), [], kept1,
          (snd (splice pt1 (or_empty (tail c)) st1)).
        repeat split; auto.
        constructor. right. apply splice_clean.
      * clear IHpre'. rewrite <- app_assoc. cbn [app].
        rewrite length_app, Nat.add_1_r, remove_one_later.
        eexists pt1, (pre' ++ [_]), kept1, _.
        rewrite <- app_assoc. cbn [app]. repeat split; auto.
        constructor. unfold same_but_tail.
        cbn [set_tail tag attrib text tail children].
        repeat split; auto. right. apply splice_clean.
    + (* the child stays *)
      destruct Kc as [Kc|[Kc Cl]]; [congruence|].
      exists pt1, pre, (c1 :: kept1), st1. repeat split.
      * apply prefix_rel_refl.
      * cbn [forallb]. rewrite F1, (kept_child_ext c c1); auto.
      * cbn [map]. rewrite M1. unfold tag_attrib at 1 3.
        destruct Hs as (T & A & _). now rewrite T, A.
Qed.

End OdtRemoval.

Section OdtMain.
Variable int : pystr -> res Z.

(** A parent after [fix_element], in terms of the two passes. *)
Lemma fix_element_passes parent st parent' st' :
  Forall (fix_element_sound int) (children parent) ->
  fix_element int parent st = Ok (parent', st') ->
  exists cs st2,
    scan_children int (fix_element int) 0 (children parent)
      (snd (collapse (text parent) st))
    = Ok ((cs, entries int 0 cs), st2) /\
    Forall (scanned int) cs /\
    map tag_attrib cs = map tag_attrib (children parent) /\
    remove_pass (fst (collapse (text parent) st), cs)
      (rev (entries int 0 cs)) st2
    = Ok ((text parent', children parent'), st') /\
    tag parent' = tag parent /\ attrib parent' = attrib parent /\
    tail parent' = tail parent /\
    clean (text parent') = true /\
    forallb (kept_child int) (children parent') = true /\
    map tag_attrib (children parent') =
      map tag_attrib
        (filter (fun c => negb (removable int c)) (children parent)).
Proof.
  intros IH H. rewrite fix_element_eq in H.
  apply bind_Ok in H as (ptext & st1 & H1 & H).
  apply bind_Ok in H as ([cs rm] & st2 & H2 & H).
  apply bind_Ok in H as ([ptext' cs'] & st3 & H3 & H).
  injection H as <- <-.
  rewrite collapseM_Ok in H1. injection H1 as <- <-.
  pose proof H2 as H2'.
  apply (scan_children_Ok int _ IH) in H2' as (-> & Sc & Mc).
  destruct (remove_pass_entries int cs Sc [] (fst (collapse (text parent) st)) st2)
    as (pt' & pre' & kept & st4 & E & R & F & Mk).
  cbn [app List.length] in E. rewrite E in H3.
  inversion R as [? Hpt|? ? ? ? Hsnoc]; subst;
    [|destruct pre0; discriminate].
  injection H3 as <- <- <-. cbn [app] in *.
  exists cs, st2. cbn [tag attrib text tail children].
  repeat split; auto.
  - destruct Hpt as [->|Hpt]; [apply collapse_clean|exact Hpt].
  - rewrite Mk. clear - Mc.
    revert cs Mc. induction (children parent) as [|c r IH]; intros [|c' r'] Mc;
      try discriminate; [reflexivity|].
    cbn [map] in Mc. injection Mc as T A M.
    cbn [filter]. rewrite (removable_ext int c' c T A).
    destruct (removable int c); cbn [negb map]; rewrite (IH _ M); [reflexivity|].
    unfold tag_attrib at 1 3. now rewrite T, A.
Qed.

Lemma fix_element_is_sound e : fix_element_sound int e.
Proof.
  induction e as [tg a tx tl cs IH] using Element_ind.
  intros st e' st' H.
  apply fix_element_passes in H; [|exact IH].
  destruct H as (cs1 & st2 & _ & _ & _ & _ & T & A & L & Cx & F & _).
  repeat split; auto.
  rewrite odt_normal_eq, Cx. exact F.
Qed.

Lemma set_tail_same c : set_tail c (tail c) = c.
Proof. now destruct c. Qed.

Lemma inspect_child_kept i c st :
  kept_ok int c = true -> clean (tail c) = true ->
  inspect_child int i c st = Ok ((c, []), st).
Proof.
  unfold kept_ok, inspect_child, bind, ret, liftR, collapseM.
  intros K Cl.
  destruct (String.eqb (tag c) T_S).
  - destruct (repeat_count int c) as [n|]; [|discriminate].
    apply negb_true_iff in K. rewrite K.
    now rewrite (collapse_clean_id _ st Cl), set_tail_same.
  - now rewrite (collapse_clean_id _ st Cl), set_tail_same.
Qed.

Lemma scan_children_normal fe cs :
  Forall (fun c => forall st, fe c st = Ok (c, st)) cs ->
  forallb (kept_child int) cs = true ->
  forall i st, scan_children int fe i cs st = Ok ((cs, []), st).
Proof.
  induction 1 as [|c r Hc _ IH]; intros F i st; [reflexivity|].
  cbn [forallb] in F. apply andb_prop in F as [Fc Fr].
  unfold kept_child in Fc. apply andb_prop in Fc as [Fc Cl].
  apply andb_prop in Fc as [_ K].
  rewrite scan_children_cons. unfold bind.
  rewrite Hc, (inspect_child_kept i c st K Cl), (IH Fr). reflexivity.
Qed.

(** On a normalised tree the normaliser changes nothing. *)
Lemma fix_element_normal_id e :
  odt_normal int e = true -> forall st, fix_element int e st = Ok (e, st).
Proof.
  induction e as [tg a tx tl cs IH] using Element_ind. intros N st.
  rewrite fix_element_eq. rewrite odt_normal_eq in N.
  cbn [text children tag attrib tail] in *.
  apply andb_prop in N as [Cx F].
  unfold bind at 1. rewrite collapseM_Ok, (collapse_clean_id _ st Cx).
  cbn [fst snd]. unfold bind at 1.
  rewrite (scan_children_normal (fix_element int) cs); [reflexivity| |exact F].
  rewrite Forall_forall in *. intros c Hc. apply IH; [exact Hc|].
  rewrite forallb_forall in F. specialize (F c Hc).
  unfold kept_child in F.
  apply andb_prop in F as [F _]. apply andb_prop in F as [F _]. exact F.
Qed.

Lemma odt_normal_descendants e :
  odt_normal int e = true ->
  forall d, In d (descendants e) ->
    kept_child int d = true.
Proof.
  induction e as [tg a tx tl cs IH] using Element_ind. intros N d Hd.
  rewrite odt_normal_eq in N. cbn [text children descendants] in *.
  apply andb_prop in N as [_ F]. rewrite forallb_forall in F.
  apply in_flat_map in Hd as (c & Hc & Hd).
  rewrite Forall_forall in IH. specialize (F c Hc).
  destruct Hd as [<-|Hd]; [exact F|].
  apply (IH c Hc); [|exact Hd].
  apply andb_prop in F as [F _]. apply andb_prop in F as [F _]. exact F.
Qed.

End OdtMain.

Section OdtRaise.
Variable int : pystr -> res Z.

Lemma inspect_child_Raise i c st x :
  inspect_child int i c st = Raise x -> bad_marker int x c.
Proof.
  unfold inspect_child, bind, ret, liftR, collapseM, bad_marker, repeat_count.
  destruct (String.eqb_spec (tag c) T_S) as [Tg|Tg].
  - destruct (attr_get T_C_ATTR (attrib c)) as [raw|].
    + destruct (int raw) as [n|e] eqn:E.
      * destruct (1 <? n); [discriminate|].
        destruct (collapse (tail c) st); discriminate.
      * intros [= ->]. eauto.
    + cbn. destruct (collapse (tail c) st); discriminate.
  - destruct (collapse (tail c) st); discriminate.
Qed.

Lemma inspect_child_bad i c st x :
  bad_marker int x c -> inspect_child int i c st = Raise x.
Proof.
  intros (Tg & raw & A & E).
  unfold inspect_child, bind, liftR, repeat_count.
  now rewrite Tg, String.eqb_refl, A, E.
Qed.

Lemma bad_marker_ext x a b :
  tag a = tag b -> attrib a = attrib b -> bad_marker int x a -> bad_marker int x b.
Proof. unfold bad_marker. now intros <- <-. Qed.

Lemma remove_pass_entries_Ok cs pt st :
  Forall (scanned int) cs ->
  exists r, remove_pass (pt, cs) (rev (entries int 0 cs)) st = Ok r.
Proof.
  intros Sc.
  destruct (remove_pass_entries int cs Sc [] pt st) as (pt' & pre' & kept & st' & E & _).
  eauto.
Qed.

(** An exception of the normaliser is one that [int] raised on the
    count attribute of a marker below the root. *)
Lemma fix_element_Raise e :
  forall st x, fix_element int e st = Raise x ->
  exists d, In d (descendants e) /\ bad_marker int x d.
Proof.
  induction e as [tg a tx tl cs IH] using Element_ind. intros st x H.
  rewrite fix_element_eq in H. cbn [text children tag attrib tail] in H.
  unfold bind at 1 in H. rewrite collapseM_Ok in H.
  set (st1 := snd (collapse tx st)) in *.
  set (pt := fst (collapse tx st)) in *. clearbody st1 pt.
  unfold bind at 1 in H.
  destruct (scan_children int (fix_element int) 0 cs st1) as [[[cs1 rm] st2]|y] eqn:Sc.
  - exfalso.
    apply scan_children_Ok in Sc as (-> & Hs & _).
    2:{ rewrite Forall_forall. intros c _. apply fix_element_is_sound. }
    destruct (remove_pass_entries_Ok cs1 pt st2 Hs) as [[[pt' cs'] st3] E].
    unfold bind in H. rewrite E in H. discriminate.
  - injection H as ->. cbn [descendants children].
    clear pt. revert Sc. generalize 0%nat as i. revert st1.
    induction IH as [|c r Hc _ IHr]; intros st1 i Sc; [discriminate|].
    rewrite scan_children_cons in Sc. unfold bind at 1 in Sc.
    destruct (fix_element int c st1) as [[c1 st2]|y] eqn:F.
    + apply fix_element_is_sound in F as (_ & T & A & _).
      unfold bind at 1 in Sc.
      destruct (inspect_child int i c1 st2) as [[[c2 sched] st3]|y] eqn:I.
      * unfold bind at 1 in Sc.
        destruct (scan_children int (fix_element int) (S i) r st3)
          as [[[r' rm] st4]|y] eqn:Sr; [discriminate|].
        injection Sc as ->.
        destruct (IHr _ _ Sr) as (d & Hd & B).
        exists d. split; [|exact B]. cbn [flat_map]. apply in_or_app. now right.
      * injection Sc as ->. apply inspect_child_Raise in I.
        exists c. split; [cbn [flat_map]; now left|].
        now apply (bad_marker_ext x c1 c).
    + injection Sc as ->. apply Hc in F as (d & Hd & B).
      exists d. split; [|exact B]. cbn [flat_map]. right.
      apply in_or_app. now left.
Qed.

(** A rejected count attribute anywhere below the root makes the
    normaliser raise. *)
Lemma bad_marker_raises e :
  forall d x, In d (descendants e) -> bad_marker int x d ->
  forall st, exists y, fix_element int e st = Raise y.
Proof.
  induction e as [tg a tx tl cs IH] using Element_ind. intros d x Hd B st.
  rewrite fix_element_eq. cbn [text children tag attrib tail descendants] in *.
  unfold bind at 1. rewrite collapseM_Ok.
  generalize (snd (collapse tx st)) as st1.
  generalize (fst (collapse tx st)) as pt. intros pt st1.
  unfold bind at 1.
  assert (S : exists y, scan_children int (fix_element int) 0 cs st1 = Raise y).
  { clear pt. revert st1. generalize 0%nat as i.
    induction IH as [|c r Hc _ IHr]; intros i st1; [destruct Hd|].
    cbn [flat_map] in Hd. rewrite scan_children_cons. unfold bind at 1.
    destruct (fix_element int c st1) as [[c1 st2]|y] eqn:F; [|eauto].
    unfold bind at 1.
    destruct (inspect_child int i c1 st2) as [[[c2 sched] st3]|y] eqn:I; [|eauto].
    destruct Hd as [<-|Hd].
    - apply fix_element_is_sound in F as (_ & T & A & _).
      rewrite (inspect_child_bad i c1 st2 x) in I; [discriminate|].
      apply (bad_marker_ext x c c1); auto.
    - apply in_app_or in Hd as [Hd|Hd].
      + destruct (Hc d x Hd B st1) as [y E]. congruence.
      + unfold bind at 1. destruct (IHr Hd (S i) st3) as [y ->]. eauto. }
  destruct S as [y ->]. eauto.
Qed.

End OdtRaise.

Lemma subn_from_true_no_space b :
  starts_with_space b = false -> subn_from true b = subn_from false b.
Proof.
  destruct b as [|c r]; [reflexivity|]. cbn [starts_with_space subn_from].
  now intros ->.
Qed.

Lemma no_run_app a b :
  no_run a = true -> no_run b = true ->
  ends_with_space a && starts_with_space b = false ->
  no_run (a ++ b) = true.
Proof.
  induction a as [|c r IH]; intros Ha Hb E; [exact Hb|].
  cbn [no_run app ends_with_space] in *.
  apply andb_prop in Ha as [H1 H2].
  destruct r as [|d r'].
  - cbn [app no_run starts_with_space] in *. now rewrite E, Hb.
  - rewrite (IH H2 Hb E). cbn [app starts_with_space] in *. now rewrite H1.
Qed.

Lemma four_spaces_subn b :
  no_run b = true -> starts_with_space b = false ->
  EXTRA_SPACE_subn (32%N :: three_spaces ++ b) = (32%N :: b, 1).
Proof.
  intros Hb Eb. unfold EXTRA_SPACE_subn, three_spaces. cbn.
  rewrite (subn_from_true_no_space b Eb).
  change (subn_from false b) with (EXTRA_SPACE_subn b).
  now rewrite (no_run_subn b Hb).
Qed.

Lemma fix_element_document int p p' st' :
  fix_element int p stats0 = Ok (p', st') ->
  tag p' = T_P -> tail p' = None ->
  fix_odt_tree int (document p) = Ok (document p', groups st', chars st').
Proof.
  intros F Tg Tl. unfold fix_odt_tree, document.
  rewrite fix_element_eq. cbn [text children tag attrib tail].
  unfold bind at 1. rewrite collapseM_Ok. cbn [collapse truthy fst snd].
  rewrite scan_children_cons. unfold bind. rewrite F.
  unfold inspect_child, bind, ret, collapseM.
  rewrite Tg, Tl. cbn. rewrite <- Tl. now rewrite set_tail_same.
Qed.

Lemma fix_element_marker_then_spaces (a b : pystr) st :
  no_run a = true -> ends_with_space a = false ->
  no_run b = true -> starts_with_space b = false ->
  fix_element py_int
    (paragraph (Some a) [marker "5" (Some (three_spaces ++ b))]) st
  = Ok (paragraph (Some (a ++ 32%N :: b)) [], bump 1 3 (bump 1 4 st))
  /\ no_run (a ++ 32%N :: b) = true.
Proof.
  intros Ha Ea Hb Eb.
  assert (Hab : no_run (a ++ 32%N :: b) = true).
  { apply no_run_app; auto.
    - cbn [no_run starts_with_space]. now rewrite Eb, Hb.
    - now rewrite Ea. }
  split; [|exact Hab].
  rewrite fix_element_eq. unfold paragraph. cbn [text children tag attrib tail].
  unfold bind at 1. rewrite collapseM_Ok, (collapse_clean_id (Some a) st Ha).
  cbn [fst snd].
  assert (Sc : scan_children py_int (fix_element py_int) 0
                 [marker "5" (Some (three_spaces ++ b))] st
               = Ok (([marker "5" (Some (three_spaces ++ b))],
                      [(0%nat, three_spaces ++ b)]), bump 1 4 st))
    by reflexivity.
  unfold bind at 1. rewrite Sc. cbn [rev app remove_pass].
  unfold bind. rewrite remove_one_first. unfold splice.
  rewrite collapse_Some, (four_spaces_subn b Hb Eb). cbn [fst snd or_empty].
  rewrite collapse_Some.
  rewrite (no_run_subn _ Hab). cbn [fst snd ret].
  rewrite Z.sub_diag, bump_0.
  unfold three_spaces, len, ret. cbn [app List.length].
  replace (Z.of_nat (S (S (S (S (List.length b))))) - Z.of_nat (S (List.length b)))
    with 3 by lia.
  reflexivity.
Qed.

(** C5 (amended).  A paragraph whose text [a] has no run and does not
    end with a space, followed by a marker with count 5 whose tail is
    three literal spaces and then [b], where [b] has no run and does not
    start with a space: the normaliser removes the marker and leaves the
    paragraph text [a], one space, [b], which has no run.  It reports 2
    runs collapsed and 7 characters removed: 4 for the marker, and 3 for
    the run of four spaces that the injected space forms with the three
    literal ones. *)
Theorem C5_marker_then_spaces (a b : pystr) :
  no_run a = true -> ends_with_space a = false ->
  no_run b = true -> starts_with_space b = false ->
  fix_odt_tree py_int
    (document (paragraph (Some a) [marker "5" (Some (three_spaces ++ b))]))
  = Ok (document (paragraph (Some (a ++ 32%N :: b)) []), 2, 7)
  /\ no_run (a ++ 32%N :: b) = true.
Proof.
  intros Ha Ea Hb Eb.
  destruct (fix_element_marker_then_spaces a b stats0 Ha Ea Hb Eb) as [F N].
  split; [|exact N].
  now rewrite (fix_element_document _ _ _ _ F).
Qed.

(** The self-test case "mix s+tail". *)
Lemma witness_C5 :
  fix_odt_tree py_int
    (document (paragraph (Some (lit "cheers"))
                 [marker "5" (Some (three_spaces ++ lit "erupting"))]))
  = Ok (document (paragraph (Some (lit "cheers erupting")) []), 2, 7)
  /\ no_run (lit "cheers erupting") = true.
Proof.
  apply (C5_marker_then_spaces (lit "cheers") (lit "erupting")); reflexivity.
Defined.

(** On that case the characters-removed total is not (5-1)+(3-1). *)
Lemma counterexample_C5 :
  exists root' g c,
    fix_odt_tree py_int
      (document (paragraph (Some (lit "cheers"))
                   [marker "5" (Some (lit "   erupting"))]))
    = Ok (root', g, c) /\ c <> (5 - 1) + (3 - 1).
Proof.
  eexists _, _, _. split; [reflexivity|]. discriminate.
Qed.

Lemma inspect_child_marker int i child N st :
  tag child = T_S -> repeat_count int child = Ok N -> 1 < N ->
  inspect_child int i child st
  = Ok ((child, [(i, or_empty (tail child))]),
        mkStats (groups st + 1) (chars st + (N - 1))).
Proof.
  intros Tg Rc Gt. unfold inspect_child, bind, liftR.
  rewrite Tg, String.eqb_refl, Rc.
  apply Z.ltb_lt in Gt. now rewrite Gt.
Qed.

Lemma kept_child_not_removable int cs :
  forallb (kept_child int) cs = true ->
  forallb (fun c => negb (removable int c)) cs = true.
Proof.
  rewrite !forallb_forall. intros H c Hc. specialize (H c Hc).
  unfold kept_child in H. apply andb_prop in H as [H _].
  apply andb_prop in H as [_ K].
  now rewrite (kept_not_removable int c K).
Qed.

(** C2.  In the ODT normaliser a marker with count N > 1 is scheduled
    with its index and its tail (the empty string for an absent one),
    and adds one to the runs counter and N - 1 to the characters counter
    at that moment.  One round of the removal loop appends the space and
    the captured tail, collapsed ([splice]), to the parent's text when
    the index is 0 and to the tail of the sibling just before the marker
    otherwise, collapses the result again, and takes the marker out of
    the children.  For a whole parent: the scan schedules exactly the
    markers with count above one, in index order ([entries]), the
    removal loop runs over that list reversed, and the children left are
    those of the input that are not such markers, in their order. *)
Theorem C2_marker_removal (int : pystr -> res Z) :
  (forall i child N st,
      tag child = T_S -> repeat_count int child = Ok N -> 1 < N ->
      inspect_child int i child st
      = Ok ((child, [(i, or_empty (tail child))]),
            mkStats (groups st + 1) (chars st + (N - 1)))) /\
  (forall ptext m cs tl st,
      remove_one (ptext, m :: cs) (0%nat, tl) st
      = Ok ((fst (splice ptext tl st), cs), snd (splice ptext tl st))) /\
  (forall ptext pre prev m cs tl st,
      remove_one (ptext, pre ++ prev :: m :: cs) (S (List.length pre), tl) st
      = Ok ((ptext, pre ++ set_tail prev (fst (splice (tail prev) tl st)) :: cs),
            snd (splice (tail prev) tl st))) /\
  (forall parent st parent' st',
      fix_element int parent st = Ok (parent', st') ->
      exists cs st2,
        scan_children int (fix_element int) 0 (children parent)
          (snd (collapse (text parent) st))
        = Ok ((cs, entries int 0 cs), st2) /\
        remove_pass (fst (collapse (text parent) st), cs)
          (rev (entries int 0 cs)) st2
        = Ok ((text parent', children parent'), st') /\
        map tag_attrib (children parent')
        = map tag_attrib
            (filter (fun c => negb (removable int c)) (children parent)) /\
        forallb (fun c => negb (removable int c)) (children parent') = true).
Proof.
  split; [exact (inspect_child_marker int)|].
  split; [exact remove_one_first|].
  split; [exact remove_one_later|].
  intros parent st parent' st' H.
  apply fix_element_passes in H.
  2:{ rewrite Forall_forall. intros c _. apply fix_element_is_sound. }
  destruct H as (cs & st2 & Sc & _ & _ & Rp & _ & _ & _ & _ & F & Mk).
  exists cs, st2. repeat split; auto.
  now apply kept_child_not_removable.
Qed.

(** A span, then a marker with count 44 and its tail: the marker is
    scheduled at index 1 and its splice goes to the tail of the span. *)
Lemma witness_C2 :
  let span := mkElement "span" [] (Some (lit "cheers")) None [] in
  let m := marker "44" (Some (lit "erupting")) in
  let span' := set_tail span (Some (lit " erupting")) in
  (tag m = T_S /\ repeat_count py_int m = Ok 44 /\ 1 < 44 /\
   inspect_child py_int 1 m stats0
   = Ok ((m, [(1%nat, lit "erupting")]), mkStats 1 43)) /\
  (fix_element py_int (paragraph None [span; m]) stats0
   = Ok (paragraph None [span'], mkStats 1 43) /\
   exists cs st2,
     scan_children py_int (fix_element py_int) 0 [span; m] stats0
     = Ok ((cs, entries py_int 0 cs), st2) /\
     remove_pass (None, cs) (rev (entries py_int 0 cs)) st2
     = Ok ((None, [span']), mkStats 1 43)).
Proof.
  intros span m span'. split.
  - split; [reflexivity|]. split; [reflexivity|]. split; [lia|].
    apply (proj1 (C2_marker_removal py_int) 1%nat m 44 stats0);
      [reflexivity|reflexivity|lia].
  - split; [reflexivity|].
    destruct (proj2 (proj2 (proj2 (C2_marker_removal py_int)))
                (paragraph None [span; m]) stats0
                (paragraph None [span']) (mkStats 1 43) eq_refl)
      as (cs & st2 & Sc & Rp & _).
    exists cs, st2. split; [exact Sc|exact Rp].
Defined.

(** C4 (amended).  A marker without a count attribute is treated as
    count 1: it is kept and its tail is collapsed.  A count attribute
    that is present and that [int] rejects is not recovered: whenever a
    marker below the root carries one, the normaliser raises, and the
    exception is one that [int] raised on such an attribute. *)
Theorem C4_count_attribute (int : pystr -> res Z) :
  (forall i c st,
      tag c = T_S -> attr_get T_C_ATTR (attrib c) = None ->
      inspect_child int i c st
      = Ok ((set_tail c (fst (collapse (tail c) st)), []),
            snd (collapse (tail c) st))) /\
  (forall root d raw x,
      In d (descendants root) -> tag d = T_S ->
      attr_get T_C_ATTR (attrib d) = Some raw -> int raw = Raise x ->
      exists y, fix_odt_tree int root = Raise y /\
        exists d' raw', In d' (descendants root) /\ tag d' = T_S /\
          attr_get T_C_ATTR (attrib d') = Some raw' /\ int raw' = Raise y).
Proof.
  split.
  - intros i c st Tg A. unfold inspect_child, bind, liftR, repeat_count, ret, collapseM.
    rewrite Tg, String.eqb_refl, A. cbn.
    now destruct (collapse (tail c) st).
  - intros root d raw x Hd Tg A E. unfold fix_odt_tree.
    destruct (bad_marker_raises int root d x Hd) with (st := stats0) as [y R].
    { split; eauto. }
    rewrite R. exists y. split; [reflexivity|].
    apply fix_element_Raise in R as (d' & Hd' & Tg' & raw' & A' & E').
    eauto 10.
Qed.

(** A marker without the attribute is kept; one with the count "abc"
    makes the normaliser raise. *)
Lemma witness_C4 :
  let plain := mkElement T_S [] None (Some (lit "a  b")) [] in
  let bad := marker "abc" (Some (lit "b")) in
  let root := document (paragraph (Some (lit "a")) [bad]) in
  (tag plain = T_S /\ attr_get T_C_ATTR (attrib plain) = None /\
   inspect_child py_int 0 plain stats0
   = Ok ((set_tail plain (Some (lit "a b")), []), mkStats 1 1)) /\
  (In bad (descendants root) /\ tag bad = T_S /\
   attr_get T_C_ATTR (attrib bad) = Some (lit "abc") /\
   py_int (lit "abc") = Raise (int_error (lit "abc")) /\
   exists y, fix_odt_tree py_int root = Raise y).
Proof.
  intros plain bad root. split.
  - split; [reflexivity|]. split; [reflexivity|].
    apply (proj1 (C4_count_attribute py_int) 0%nat plain stats0); reflexivity.
  - assert (Hd : In bad (descendants root)) by (right; left; reflexivity).
    split; [exact Hd|]. repeat (split; [reflexivity|]).
    destruct (proj2 (C4_count_attribute py_int) root bad (lit "abc")
                (int_error (lit "abc")) Hd eq_refl eq_refl eq_refl)
      as (y & R & _).
    exists y. exact R.
Defined.

(** The claim as stated fails on a marker with the count "abc": the
    normaliser raises the [ValueError] of [int]. *)
Lemma counterexample_C4 :
  fix_odt_tree py_int
    (document (paragraph (Some (lit "a")) [marker "abc" (Some (lit "b"))]))
  = Raise (int_error (lit "abc")).
Proof. reflexivity. Qed.

(** C9.  When the ODT normaliser returns, no element below the root of
    its result is a marker with a count above one: every [text:s] element
    there has a count that [int] accepts and that is at most 1. *)
Theorem C9_no_removable_marker_left (int : pystr -> res Z) root root' g c :
  fix_odt_tree int root = Ok (root', g, c) ->
  forall d, In d (descendants root') -> tag d = T_S ->
    exists n, repeat_count int d = Ok n /\ n <= 1.
Proof.
  unfold fix_odt_tree. intros H d Hd Tg.
  destruct (fix_element int root stats0) as [[r st]|] eqn:F; [|discriminate].
  injection H as -> _ _.
  apply fix_element_is_sound in F as (N & _).
  pose proof (odt_normal_descendants int root' N d Hd) as K.
  unfold kept_child in K. apply andb_prop in K as [K _].
  apply andb_prop in K as [_ K]. unfold kept_ok in K.
  rewrite Tg, String.eqb_refl in K.
  destruct (repeat_count int d) as [n|]; [|discriminate].
  exists n. split; [reflexivity|].
  apply negb_true_iff, Z.ltb_ge in K. exact K.
Qed.

(** Markers with counts 7, 1 and 3 inside a span: only the one with
    count 1 is left. *)
Lemma witness_C9 :
  let span := mkElement "span" [] (Some (lit "a")) None
                [marker "7" (Some (lit "b")); marker "1" (Some (lit "c"));
                 marker "3" None] in
  let root := document (paragraph None [span]) in
  let span' := mkElement "span" [] (Some (lit "a b")) None
                 [marker "1" (Some (lit "c "))] in
  let root' := document (paragraph None [span']) in
  fix_odt_tree py_int root = Ok (root', 2, 8) /\
  In (marker "1" (Some (lit "c "))) (descendants root') /\
  exists n, repeat_count py_int (marker "1" (Some (lit "c "))) = Ok n /\ n <= 1.
Proof.
  intros span root span' root'.
  assert (H : fix_odt_tree py_int root = Ok (root', 2, 8)) by reflexivity.
  assert (Hd : In (marker "1" (Some (lit "c "))) (descendants root'))
    by (right; right; left; reflexivity).
  split; [exact H|]. split; [exact Hd|].
  exact (C9_no_removable_marker_left py_int root root' 2 8 H _ Hd eq_refl).
Defined.

(** C7.  A second pass of either normaliser over the tree the first pass
    returned gives that tree back and reports no run collapsed and no
    character removed. *)
Theorem C7_idempotent :
  (forall root root' g c,
      fix_docx_tree root = (root', g, c) ->
      fix_docx_tree root' = (root', 0, 0)) /\
  (forall int root root' g c,
      fix_odt_tree int root = Ok (root', g, c) ->
      fix_odt_tree int root' = Ok (root', 0, 0)).
Proof.
  split.
  - intros root root' g c H. pose proof (docx_idempotent root) as I.
    rewrite H in I. exact I.
  - intros int root root' g c H. unfold fix_odt_tree in *.
    destruct (fix_element int root stats0) as [[r st]|] eqn:F; [|discriminate].
    injection H as -> _ _.
    apply fix_element_is_sound in F as (N & _).
    now rewrite (fix_element_normal_id int root' N).
Qed.

Lemma witness_C7 :
  let wt := mkElement W_T [] (Some (lit "to  be ")) (Some (lit "   ")) [] in
  let wt' := mkElement W_T [(XML_SPACE, lit "preserve")]
               (Some (lit "to be ")) (Some (lit " ")) [] in
  let docx := mkElement W_P [] None None [wt] in
  let docx' := mkElement W_P [] None None [wt'] in
  let odt := document (paragraph (Some (lit "x"))
               [marker "2" (Some (lit "a")); marker "1" (Some (lit "  b"))]) in
  let odt' := document (paragraph (Some (lit "x a"))
                [marker "1" (Some (lit " b"))]) in
  (fix_docx_tree docx = (docx', 2, 3) /\
   fix_docx_tree docx' = (docx', 0, 0)) /\
  (fix_odt_tree py_int odt = Ok (odt', 2, 2) /\
   fix_odt_tree py_int odt' = Ok (odt', 0, 0)).
Proof.
  intros wt wt' docx docx' odt odt'. split.
  - split; [reflexivity|].
    apply (proj1 C7_idempotent docx docx' 2 3). reflexivity.
  - split; [reflexivity|].
    apply (proj2 C7_idempotent py_int odt odt' 2 2). reflexivity.
Defined.

(** *** The text the normaliser keeps *)

Lemma squeeze_app a b : squeeze (a ++ b) = squeeze a ++ squeeze b.
Proof. apply filter_app. Qed.


Lemma subn_from_squeeze s :
  squeeze (fst (subn_from true s)) = squeeze s /\
  squeeze (fst (subn_from false s)) = squeeze s.
Proof.
  induction s as [|c r [IHt IHf]]; [split; reflexivity|].
  cbn [subn_from squeeze filter].
  destruct (is_space_char c) eqn:Ec; cbn [negb].
  - split; [exact IHt|].
    destruct (starts_with_space r).
    + destruct (subn_from true r) as [o n]. cbn [fst squeeze filter] in *.
      exact IHt.
    + destruct (subn_from false r) as [o n]. cbn [fst squeeze filter] in *.
      rewrite Ec. exact IHf.
  - destruct (subn_from false r) as [o n]. cbn [fst squeeze filter] in *.
    rewrite Ec. cbn [negb]. split; f_equal; exact IHf.
Qed.



Lemma squeeze_join ls ls' :
  map squeeze ls' = map squeeze ls ->
  squeeze (join_lines ls') = squeeze (join_lines ls).
Proof.
  revert ls'. induction ls as [|l r IH]; intros [|l' r'] H; try discriminate;
    [reflexivity|].
  cbn [map] in H. injection H as Hl Hr.
  cbn [join_lines].
  destruct r as [|l2 r2], r' as [|l2' r2']; try discriminate; [exact Hl|].
  rewrite !squeeze_app. cbn [squeeze filter]. cbn [is_space_char N.eqb Pos.eqb orb negb].
  fold (squeeze (join_lines (l2 :: r2))). fold (squeeze (join_lines (l2' :: r2'))).
  rewrite Hl. f_equal. f_equal. apply IH. exact Hr.
Qed.

Section ProjectionProps.
Variable int : pystr -> res Z.






Lemma iter_eq tg e :
  iter tg e =
  (if String.eqb (tag e) tg then [e] else []) ++ flat_map (iter tg) (children e).
Proof. destruct e; reflexivity. Qed.


Hypothesis int_1 : int (lit "1") = Ok 1.






End ProjectionProps.

Section Preservation.
Variable int : pystr -> res Z.









End Preservation.

Lemma slot_rel_refl pt pre : exists slot, slot_rel pt pre pt pre slot slot.
Proof.
  destruct pre as [|p r _] using rev_ind.
  - exists pt. constructor.
  - exists (tail p). rewrite <- (set_tail_same p) at 2. constructor.
Qed.

Section Removal.
Variable int : pystr -> res Z.










End Removal.

Lemma is_space_char_isspace c : is_space_char c = true -> py_isspace c = true.
Proof.
  unfold is_space_char. intros H. apply orb_prop in H as [H|H];
    apply N.eqb_eq in H; subst; reflexivity.
Qed.

Lemma non_space_squeeze s : non_space (squeeze s) = non_space s.
Proof.
  unfold non_space, squeeze. induction s as [|c r IH]; [reflexivity|].
  cbn [filter]. destruct (is_space_char c) eqn:E; cbn [negb filter].
  - rewrite (is_space_char_isspace c E). exact IH.
  - now rewrite IH.
Qed.

Section Content.
Variable int : pystr -> res Z.




End Content.


(** C1 (the code loses text).  Two removable markers that are adjacent
    siblings, the second one with the tail "b": the projection before
    normalisation holds the characters x, a, b; the normaliser returns a
    paragraph with the text "x a" and no child, whose projection has lost
    the "b".  The tail of the second marker is appended to the live tail
    of the first one, which is then removed with the tail captured during
    the scan. *)
Theorem C1_adjacent_markers_lose_text :
  plain_odt py_int adjacent_markers = Ok (lit "x  a   b") /\
  fix_odt_tree py_int adjacent_markers
  = Ok (document (paragraph (Some (lit "x a")) []), 2, 3) /\
  plain_odt py_int (document (paragraph (Some (lit "x a")) []))
  = Ok (lit "x a") /\
  non_space (lit "x  a   b") = lit "xab" /\
  non_space (lit "x a") = lit "xa".
Proof. repeat split. Qed.

(* ------------------------------------------------------------------ *)
(** ** The dispatch of [fix_file] *)

Section FixFileProps.
Variable fromstring : bytes -> res Element.
Variable tostring : Element -> bytes.
Variable int : pystr -> res Z.
Variable splitext : pystr -> pystr * pystr.
Variable lower : pystr -> pystr.

Lemma pystr_eqb_neq a b : a <> b -> pystr_eqb a b = false.
Proof.
  intros H. destruct (pystr_eqb a b) eqn:E; [|reflexivity].
  now apply pystr_eqb_eq in E.
Qed.

Lemma fix_file_unsupported inp out :
  lower (snd (splitext inp)) <> lit ".docx" ->
  lower (snd (splitext inp)) <> lit ".odt" ->
  fix_file fromstring tostring int splitext lower inp out
  = Throw (unsupported (lower (snd (splitext inp)))).
Proof.
  intros H1 H2. unfold fix_file.
  now rewrite (pystr_eqb_neq _ _ H1), (pystr_eqb_neq _ _ H2).
Qed.

Lemma fix_file_docx inp out :
  lower (snd (splitext inp)) = lit ".docx" ->
  fix_file fromstring tostring int splitext lower inp out
  = fix_docx fromstring tostring inp out.
Proof. intros H. unfold fix_file. now rewrite H. Qed.

Lemma fix_file_odt inp out :
  lower (snd (splitext inp)) = lit ".odt" ->
  fix_file fromstring tostring int splitext lower inp out
  = fix_odt fromstring tostring int inp out.
Proof. intros H. unfold fix_file. now rewrite H. Qed.
End FixFileProps.

(** C8.  When the lower-cased extension of the input path is neither
    ".docx" nor ".odt", [fix_file] is the program that raises the
    [ValueError] for that extension and does nothing else: run against
    any environment it makes no library call (no temporary file, no
    archive opened, read or written, nothing moved), and leaves the
    state of the environment as it was. *)
Theorem C8_unsupported_extension fromstring tostring int splitext lower
  (inp out : pystr) :
  lower (snd (splitext inp)) <> lit ".docx" ->
  lower (snd (splitext inp)) <> lit ".odt" ->
  fix_file fromstring tostring int splitext lower inp out
  = Throw (unsupported (lower (snd (splitext inp)))) /\
  forall W (answer : forall R, call R -> W -> res R * W) (w : W),
    run answer (fix_file fromstring tostring int splitext lower inp out) w
    = ([], Raise (unsupported (lower (snd (splitext inp)))), w).
Proof.
  intros H1 H2.
  rewrite (fix_file_unsupported fromstring tostring int splitext lower inp out H1 H2).
  split; reflexivity.
Qed.

(** A path with the extension ".txt". *)
Lemma witness_C8 :
  ascii_lower (snd (posix_splitext (lit "/home/me/notes.txt"))) = lit ".txt" /\
  fix_file no_parse no_print py_int posix_splitext ascii_lower
    (lit "/home/me/notes.txt") (lit "/home/me/notes_fixed.txt")
  = Throw (ValueError (lit "Unsupported type: .txt  (use .docx or .odt)")).
Proof.
  split; [reflexivity|].
  apply (C8_unsupported_extension no_parse no_print py_int posix_splitext
           ascii_lower (lit "/home/me/notes.txt") (lit "/home/me/notes_fixed.txt"));
    vm_compute; discriminate.
Defined.

(** C10.  [fix_file] compares the extension after lower-casing it: a
    path whose extension lower-cases to ".docx" is handled by [fix_docx]
    and one whose extension lower-cases to ".odt" by [fix_odt], whatever
    the case of the letters in the path; each starts by creating the
    temporary file of its dialect. *)
Theorem C10_extension_case_insensitive fromstring tostring int splitext lower
  (inp out : pystr) :
  (lower (snd (splitext inp)) = lit ".docx" ->
   fix_file fromstring tostring int splitext lower inp out
   = fix_docx fromstring tostring inp out /\
   first_temp_suffix (fix_file fromstring tostring int splitext lower inp out)
   = Some (lit ".docx")) /\
  (lower (snd (splitext inp)) = lit ".odt" ->
   fix_file fromstring tostring int splitext lower inp out
   = fix_odt fromstring tostring int inp out /\
   first_temp_suffix (fix_file fromstring tostring int splitext lower inp out)
   = Some (lit ".odt")).
Proof.
  split; intros H.
  - rewrite (fix_file_docx fromstring tostring int splitext lower inp out H).
    split; reflexivity.
  - rewrite (fix_file_odt fromstring tostring int splitext lower inp out H).
    split; reflexivity.
Qed.

(** The extensions ".DOCX" (POSIX path) and ".Odt" (Windows path). *)
Lemma witness_C10 :
  (snd (posix_splitext (lit "/home/me/Report.DOCX")) = lit ".DOCX" /\
   fix_file no_parse no_print py_int posix_splitext ascii_lower
     (lit "/home/me/Report.DOCX") (lit "out.docx")
   = fix_docx no_parse no_print (lit "/home/me/Report.DOCX") (lit "out.docx")) /\
  (snd (nt_splitext (lit "C:\docs\Letter.Odt")) = lit ".Odt" /\
   fix_file no_parse no_print py_int nt_splitext ascii_lower
     (lit "C:\docs\Letter.Odt") (lit "out.odt")
   = fix_odt no_parse no_print py_int (lit "C:\docs\Letter.Odt") (lit "out.odt")).
Proof.
  split; (split; [reflexivity|]).
  - apply (C10_extension_case_insensitive no_parse no_print py_int
             posix_splitext ascii_lower (lit "/home/me/Report.DOCX") (lit "out.docx")).
    reflexivity.
  - apply (C10_extension_case_insensitive no_parse no_print py_int
             nt_splitext ascii_lower (lit "C:\docs\Letter.Odt") (lit "out.odt")).
    reflexivity.
Defined.


(* ================================================================== *)
(** * Further properties *)

(** ** More on the substitution and the DOCX pass *)

(** X1.  The substitution [EXTRA_SPACE.subn(" ", s)] reaches a normal
    form in one step: its result holds no run of two or more spaces or
    no-break spaces, substituting again returns it unchanged with the
    count 0, and on any input the count is 0 exactly when the input
    holds no run, which is also exactly when the result is the input. *)
Theorem subn_normal_form (s : pystr) :
  no_run (fst (EXTRA_SPACE_subn s)) = true /\
  EXTRA_SPACE_subn (fst (EXTRA_SPACE_subn s)) = (fst (EXTRA_SPACE_subn s), 0) /\
  (snd (EXTRA_SPACE_subn s) = 0 <-> no_run s = true) /\
  (fst (EXTRA_SPACE_subn s) = s <-> no_run s = true).
Proof.
  pose proof (subn_no_run s) as N.
  split; [exact N|]. split; [now apply no_run_subn|]. split; split.
  - apply subn_n0_clean.
  - intros H. now rewrite (no_run_subn s H).
  - intros H. now rewrite <- H.
  - intros H. now rewrite (no_run_subn s H).
Qed.

(** X2.  The substitution touches spaces only: the characters other
    than space and no-break space are the same before and after, in the
    same order; the count is not negative and the result is shorter than
    the input by at least the count (every replaced run loses at least
    one character). *)
Theorem subn_keeps_other_characters (s : pystr) :
  squeeze (fst (EXTRA_SPACE_subn s)) = squeeze s /\
  0 <= snd (EXTRA_SPACE_subn s) /\
  len (fst (EXTRA_SPACE_subn s)) + snd (EXTRA_SPACE_subn s) <= len s.
Proof.
  split; [apply subn_from_squeeze|].
  pose proof (subn_removed s) as R.
  pose proof (sum_runs_lower (segments s)) as L.
  rewrite EXTRA_SPACE_subn_segments in *. cbn [spec_subn fst snd] in *.
  unfold space_runs in R. lia.
Qed.

Lemma bump_bump a b c d st : bump a b (bump c d st) = bump (c + a) (d + b) st.
Proof. destruct st. unfold bump. cbn. f_equal; lia. Qed.

Lemma sum_Z_app l1 l2 : sum_Z (l1 ++ l2) = sum_Z l1 + sum_Z l2.
Proof.
  induction l1 as [|x r IH]; [reflexivity|].
  cbn [app sum_Z fold_right] in *. fold (sum_Z (r ++ l2)). fold (sum_Z r).
  rewrite IH. lia.
Qed.

Lemma sum_Z_cons x l : sum_Z (x :: l) = x + sum_Z l.
Proof. reflexivity. Qed.

Lemma runs_in_subn t : runs_in t = snd (EXTRA_SPACE_subn (or_empty t)).
Proof. now rewrite EXTRA_SPACE_subn_segments. Qed.

Lemma removed_in_subn t :
  removed_in t = len (or_empty t) - len (fst (EXTRA_SPACE_subn (or_empty t))).
Proof. unfold removed_in. now rewrite subn_removed. Qed.

Lemma runs_in_nonneg t : 0 <= runs_in t.
Proof. unfold runs_in. lia. Qed.

Lemma runs_le_removed t : runs_in t <= removed_in t.
Proof. apply sum_runs_lower. Qed.

Lemma runs_in_zero_clean t : runs_in t = 0 -> clean t = true.
Proof. rewrite runs_in_subn. apply subn_n0_clean. Qed.

Lemma clean_runs_in_zero t : clean t = true -> runs_in t = 0.
Proof. intros C. now rewrite runs_in_subn, (clean_subn t C). Qed.

(** The counters after one substitution, in terms of the runs. *)
Lemma subn_counters t st :
  (if snd (EXTRA_SPACE_subn (or_empty t)) =? 0 then st
   else bump (snd (EXTRA_SPACE_subn (or_empty t)))
          (len (or_empty t) - len (fst (EXTRA_SPACE_subn (or_empty t)))) st)
  = bump (runs_in t) (removed_in t) st.
Proof.
  rewrite <- runs_in_subn, <- removed_in_subn.
  destruct (Z.eqb_spec (runs_in t) 0) as [E|E]; [|reflexivity].
  pose proof (subn_zero_unchanged (or_empty t)) as U.
  rewrite <- runs_in_subn in U. rewrite removed_in_subn, (U E), E, Z.sub_diag.
  now rewrite bump_0.
Qed.

Lemma falsy_no_runs t : truthy t = false -> runs_in t = 0 /\ removed_in t = 0.
Proof.
  intros T. unfold runs_in, removed_in.
  now rewrite (truthy_false_or_empty t T).
Qed.

Lemma fix_wt_stats wt st :
  snd (fix_wt wt st)
  = bump (runs_in (text wt) + runs_in (tail wt))
      (removed_in (text wt) + removed_in (tail wt)) st.
Proof.
  rewrite <- bump_bump.
  rewrite <- (subn_counters (tail wt)), <- (subn_counters (text wt) st).
  unfold fix_wt. cbv zeta.
  destruct (truthy (text wt)) eqn:Tx;
    [|rewrite ?(truthy_false_or_empty _ Tx)];
    (destruct (truthy (tail wt)) eqn:Tl;
     [|rewrite ?(truthy_false_or_empty _ Tl)]);
    change (EXTRA_SPACE_subn []) with (@nil N, 0); cbn [fst snd Z.eqb];
    try destruct (EXTRA_SPACE_subn (or_empty (text wt))) as [f1 n1];
    try destruct (EXTRA_SPACE_subn (or_empty (tail wt))) as [f2 n2] eqn:E2;
    cbn [fst snd];
    try destruct (n1 =? 0); try destruct (needs_preserve f1);
    cbn [tail set_text set_attr]; rewrite ?Tl, ?E2;
    try destruct (n2 =? 0); reflexivity.
Qed.

Lemma docx_runs_eq e :
  docx_runs e =
  (if String.eqb (tag e) W_T then runs_in (text e) + runs_in (tail e) else 0)
  + sum_Z (map docx_runs (children e)).
Proof.
  unfold docx_runs at 1. rewrite iter_eq, map_app, sum_Z_app. f_equal.
  - destruct (String.eqb (tag e) W_T); cbn; lia.
  - induction (children e) as [|c r IH]; [reflexivity|].
    cbn [flat_map map]. rewrite map_app, sum_Z_app, IH. reflexivity.
Qed.

Lemma docx_removed_eq e :
  docx_removed e =
  (if String.eqb (tag e) W_T
   then removed_in (text e) + removed_in (tail e) else 0)
  + sum_Z (map docx_removed (children e)).
Proof.
  unfold docx_removed at 1. rewrite iter_eq, map_app, sum_Z_app. f_equal.
  - destruct (String.eqb (tag e) W_T); cbn; lia.
  - induction (children e) as [|c r IH]; [reflexivity|].
    cbn [flat_map map]. rewrite map_app, sum_Z_app, IH. reflexivity.
Qed.

Lemma map_state_stats (f : Element -> stats -> Element * stats)
  (G C : Element -> Z) cs :
  Forall (fun c => forall st, snd (f c st) = bump (G c) (C c) st) cs ->
  forall st, snd (map_state f cs st)
             = bump (sum_Z (map G cs)) (sum_Z (map C cs)) st.
Proof.
  induction 1 as [|c r Hc _ IH]; intros st.
  - cbn. now rewrite bump_0.
  - cbn [map_state map]. specialize (Hc st). destruct (f c st) as [c' st1].
    fold (map_state f). specialize (IH st1).
    destruct (map_state f r st1) as [r' st2]. cbn [snd] in *.
    rewrite IH, Hc, bump_bump, !sum_Z_cons. reflexivity.
Qed.

Lemma fix_docx_element_stats e :
  forall st, snd (fix_docx_element e st)
             = bump (docx_runs e) (docx_removed e) st.
Proof.
  induction e as [tg a tx tl cs IH] using Element_ind. intros st.
  rewrite fix_docx_element_eq, docx_runs_eq, docx_removed_eq.
  set (e := mkElement tg a tx tl cs) in *.
  pose proof (map_state_stats fix_docx_element docx_runs docx_removed cs IH) as M.
  rewrite <- bump_bump. cbn [children e].
  destruct (String.eqb (tag e) W_T).
  - pose proof (fix_wt_stats e st) as W. destruct (fix_wt e st) as [e1 st1].
    cbn [snd] in W. specialize (M st1).
    destruct (map_state fix_docx_element cs st1) as [cs' st2].
    cbn [snd] in *. now rewrite M, W.
  - specialize (M st). destruct (map_state fix_docx_element cs st) as [cs' st2].
    cbn [snd] in *. now rewrite M, bump_0.
Qed.

(** X3.  The counters [_fix_docx_xml] returns are those of the input
    tree: [groups] is the number of space runs in the text and the tail
    of its [w:t] elements, [chars] the number of characters by which
    those runs exceed one space each. *)
Theorem docx_statistics (root : Element) :
  snd (fst (fix_docx_tree root)) = docx_runs root /\
  snd (fix_docx_tree root) = docx_removed root.
Proof.
  unfold fix_docx_tree.
  pose proof (fix_docx_element_stats root stats0) as S.
  destruct (fix_docx_element root stats0) as [root' st]. cbn [fst snd] in *.
  rewrite S. cbn. split; reflexivity.
Qed.

Lemma shape_of_eq {A} (f : Element -> A) e :
  shape_of f e = Node (f e) (map (shape_of f) (children e)).
Proof. destruct e; reflexivity. Qed.

Lemma map_state_map {A B S C} (f : A -> S -> B * S) (g : A -> C) (h : B -> C) l :
  Forall (fun x => forall st, h (fst (f x st)) = g x) l ->
  forall st, map h (fst (map_state f l st)) = map g l.
Proof.
  induction 1 as [|x r Hx _ IH]; intros st; [reflexivity|].
  cbn [map_state map]. specialize (Hx st). destruct (f x st) as [y st1].
  fold (map_state f). specialize (IH st1).
  destruct (map_state f r st1) as [ys st2]. cbn [fst map] in *.
  now rewrite Hx, IH.
Qed.

Lemma fix_docx_element_shape e :
  forall st, shape_of docx_fixed_part (fst (fix_docx_element e st))
             = shape_of docx_fixed_part e.
Proof.
  induction e as [tg a tx tl cs IH] using Element_ind. intros st.
  rewrite fix_docx_element_eq.
  set (e := mkElement tg a tx tl cs) in *.
  pose proof (map_state_map fix_docx_element (shape_of docx_fixed_part)
                (shape_of docx_fixed_part) cs IH) as M.
  assert (H : exists e1 st1,
             (if String.eqb (tag e) W_T then fix_wt e st else (e, st))
             = (e1, st1) /\ docx_fixed_part e1 = docx_fixed_part e).
  { destruct (String.eqb (tag e) W_T) eqn:Tg; [|eauto].
    pose proof (fix_wt_fields e st) as F. cbv zeta in F.
    destruct (fix_wt e st) as [e1 st1]. cbn [fst] in F.
    destruct F as (T & _). exists e1, st1. split; [reflexivity|].
    unfold docx_fixed_part. now rewrite T, Tg. }
  destruct H as (e1 & st1 & -> & P). cbn [children e]. specialize (M st1).
  destruct (map_state fix_docx_element cs st1) as [cs' st2]. cbn [fst] in *.
  rewrite !shape_of_eq. cbn [children set_children e]. rewrite M. f_equal.
  rewrite <- P. reflexivity.
Qed.

(** X4.  The DOCX pass keeps the structure of the tree: the same
    elements in the same places with the same tags, and outside the
    [w:t] elements the same attributes, text and tail. *)
Theorem docx_structure_kept (root : Element) :
  shape_of docx_fixed_part (fst (fst (fix_docx_tree root)))
  = shape_of docx_fixed_part root.
Proof.
  unfold fix_docx_tree.
  pose proof (fix_docx_element_shape root stats0) as S.
  destruct (fix_docx_element root stats0) as [root' st]. exact S.
Qed.

Lemma docx_clean_iter e :
  docx_clean e = true ->
  Forall (fun wt => clean (text wt) = true /\ clean (tail wt) = true)
    (iter W_T e).
Proof.
  induction e as [tg a tx tl cs IH] using Element_ind. intros C.
  rewrite docx_clean_eq in C. rewrite iter_eq.
  cbn [tag text tail children] in *. apply andb_prop in C as [C1 C2].
  apply Forall_app. split.
  - destruct (String.eqb tg W_T); [|constructor].
    apply andb_prop in C1. constructor; [exact C1|constructor].
  - rewrite forallb_forall in C2. rewrite Forall_forall in *.
    intros wt Hwt. apply in_flat_map in Hwt as (c & Hc & Hwt).
    pose proof (IH c Hc (C2 c Hc)) as F. rewrite Forall_forall in F.
    exact (F wt Hwt).
Qed.

(** X5.  After the DOCX pass no [w:t] element of the tree, at any
    depth, holds a run of two or more spaces or no-break spaces in its
    text or in its tail. *)
Theorem docx_no_run_left (root : Element) :
  Forall (fun wt => no_run (or_empty (text wt)) = true /\
                    no_run (or_empty (tail wt)) = true)
    (iter W_T (fst (fst (fix_docx_tree root)))).
Proof.
  unfold fix_docx_tree.
  pose proof (fix_docx_element_clean root stats0) as C.
  destruct (fix_docx_element root stats0) as [root' st]. cbn [fst] in *.
  exact (docx_clean_iter root' C).
Qed.

Lemma sum_Z_nonneg_zero {A} (f : A -> Z) l :
  (forall x, In x l -> 0 <= f x) ->
  0 <= sum_Z (map f l) /\
  (sum_Z (map f l) = 0 -> forall x, In x l -> f x = 0).
Proof.
  induction l as [|y r IH]; intros H.
  - split; [cbn; lia|intros _ x []].
  - destruct IH as [IH1 IH2]. { intros x Hx. apply H. now right. }
    pose proof (H y (or_introl eq_refl)) as Hy.
    cbn [map]. rewrite sum_Z_cons. split; [lia|].
    intros E x [<-|Hx]; [lia|]. apply IH2; [lia|exact Hx].
Qed.

Lemma docx_runs_nonneg e : 0 <= docx_runs e.
Proof.
  unfold docx_runs. apply sum_Z_nonneg_zero. intros wt _.
  pose proof (runs_in_nonneg (text wt)). pose proof (runs_in_nonneg (tail wt)).
  lia.
Qed.

Lemma docx_runs_le_removed e : docx_runs e <= docx_removed e.
Proof.
  unfold docx_runs, docx_removed.
  induction (iter W_T e) as [|wt r IH]; [reflexivity|].
  cbn [map]. rewrite !sum_Z_cons.
  pose proof (runs_le_removed (text wt)). pose proof (runs_le_removed (tail wt)).
  lia.
Qed.

Lemma iter_tag tg e : forall p, In p (iter tg e) -> tag p = tg.
Proof.
  induction e as [tg' a tx tl cs IH] using Element_ind. intros p Hp.
  rewrite iter_eq in Hp. cbn [tag children] in Hp.
  apply in_app_or in Hp as [Hp|Hp].
  - destruct (String.eqb_spec tg' tg) as [E|E]; [|destruct Hp].
    destruct Hp as [<-|[]]. exact E.
  - apply in_flat_map in Hp as (c & Hc & Hp).
    rewrite Forall_forall in IH. exact (IH c Hc p Hp).
Qed.

Lemma docx_runs_zero_clean e : docx_runs e = 0 -> docx_clean e = true.
Proof.
  intros Z0.
  assert (W : forall wt, In wt (iter W_T e) ->
              clean (text wt) = true /\ clean (tail wt) = true).
  { intros wt Hwt.
    pose proof (proj2 (sum_Z_nonneg_zero
                  (fun wt => runs_in (text wt) + runs_in (tail wt))
                  (iter W_T e)
                  (fun x _ => Z.add_nonneg_nonneg _ _
                                (runs_in_nonneg (text x))
                                (runs_in_nonneg (tail x)))) Z0 wt Hwt) as E.
    cbv beta in E.
    pose proof (runs_in_nonneg (text wt)). pose proof (runs_in_nonneg (tail wt)).
    split; apply runs_in_zero_clean; lia. }
  clear Z0. revert W.
  induction e as [tg a tx tl cs IH] using Element_ind. intros W.
  rewrite docx_clean_eq. cbn [tag text tail children].
  apply andb_true_intro. split.
  - destruct (String.eqb tg W_T) eqn:Tg; [|reflexivity].
    destruct (W (mkElement tg a tx tl cs)) as [C1 C2].
    { rewrite iter_eq. cbn [tag]. rewrite Tg. now left. }
    cbn [text tail] in *. now rewrite C1, C2.
  - apply forallb_forall. intros c Hc. rewrite Forall_forall in IH.
    apply (IH c Hc). intros wt Hwt. apply W.
    rewrite iter_eq. apply in_or_app. right. apply in_flat_map. eauto.
Qed.

(** X6.  The counters of the DOCX pass tell whether it changed the
    tree: [0 <= groups <= chars], and [groups] is 0 exactly when the
    tree returned is the tree given, as is [chars].  The status line of
    the window reports a file as already clean on [groups == 0]. *)
Theorem docx_counters_and_change (root : Element) :
  let '(root', g, c) := fix_docx_tree root in
  0 <= g <= c /\
  (g = 0 <-> root' = root) /\
  (c = 0 <-> root' = root).
Proof.
  assert (GC : snd (fst (fix_docx_tree root)) = docx_runs root /\
               snd (fix_docx_tree root) = docx_removed root).
  { unfold fix_docx_tree.
    pose proof (fix_docx_element_stats root stats0) as S.
    destruct (fix_docx_element root stats0) as [root' st]. cbn [fst snd] in *.
    rewrite S. cbn. split; reflexivity. }
  destruct GC as [G C].
  pose proof (docx_runs_nonneg root) as N.
  pose proof (docx_runs_le_removed root) as L.
  assert (Z0 : docx_runs root = 0 -> fix_docx_tree root = (root, 0, 0)).
  { intros E. unfold fix_docx_tree.
    now rewrite (fix_docx_element_clean_id root (docx_runs_zero_clean root E)). }
  assert (Same : fst (fst (fix_docx_tree root)) = root -> docx_removed root = 0).
  { intros E. pose proof (docx_idempotent root) as I. rewrite E in I.
    rewrite I in C. cbn in C. congruence. }
  destruct (fix_docx_tree root) as [[root' g] c]. cbn [fst snd] in *.
  subst g c. split; [lia|]. split; split; intros H.
  - specialize (Z0 H). congruence.
  - specialize (Same H). lia.
  - assert (E : docx_runs root = 0) by lia. specialize (Z0 E). congruence.
  - exact (Same H).
Qed.

(* defs *)
(** A [w:...] element after the pass, against the element before it. *)
Definition docx_fixed (p p' : Element) : Prop :=
  exists st, p' = fst (fix_docx_element p st).

(** One line of [_plain_docx]: the texts of the [w:t] elements of [para]. *)
Definition docx_line (para : Element) : pystr :=
  List.concat
    (map (fun wt => or_empty (text wt))
       (filter (fun wt => truthy (text wt)) (iter W_T para))).

(* lemmas *)
Lemma Forall2_flat_map {A B} (R : B -> B -> Prop) (f : A -> list B) l l' :
  Forall2 (fun x x' => Forall2 R (f x) (f x')) l l' ->
  Forall2 R (flat_map f l) (flat_map f l').
Proof.
  induction 1 as [|x x' r r' H _ IH]; [constructor|].
  cbn [flat_map]. apply Forall2_app; assumption.
Qed.

Lemma map_state_Forall2 {A B S} (f : A -> S -> B * S) (R : A -> B -> Prop) l :
  Forall (fun x => forall st, R x (fst (f x st))) l ->
  forall st, Forall2 R l (fst (map_state f l st)).
Proof.
  induction 1 as [|x r Hx _ IH]; intros st; [constructor|].
  cbn [map_state]. specialize (Hx st). destruct (f x st) as [y st1].
  fold (map_state f). specialize (IH st1).
  destruct (map_state f r st1) as [ys st2]. constructor; assumption.
Qed.

Lemma fix_docx_element_tag e st : tag (fst (fix_docx_element e st)) = tag e.
Proof.
  pose proof (fix_docx_element_shape e st) as S.
  rewrite !shape_of_eq in S. unfold docx_fixed_part in S.
  now injection S.
Qed.

(** The elements with a given tag, before and after the pass. *)
Lemma iter_fix_docx tg e :
  forall st, Forall2 docx_fixed (iter tg e)
               (iter tg (fst (fix_docx_element e st))).
Proof.
  induction e as [tg' a tx tl cs IH] using Element_ind. intros st.
  set (e := mkElement tg' a tx tl cs) in *.
  rewrite (iter_eq tg (fst (fix_docx_element e st))), fix_docx_element_tag.
  rewrite (iter_eq tg e). apply Forall2_app.
  - destruct (String.eqb (tag e) tg); constructor; [|constructor].
    now exists st.
  - rewrite fix_docx_element_eq.
    destruct (if String.eqb (tag e) W_T then fix_wt e st else (e, st))
      as [e1 st1].
    pose proof (map_state_Forall2 fix_docx_element
                  (fun c c' => Forall2 docx_fixed (iter tg c) (iter tg c'))
                  (children e) IH st1) as M.
    destruct (map_state fix_docx_element (children e) st1) as [cs' st2].
    cbn [fst set_children children] in *.
    now apply Forall2_flat_map.
Qed.

Lemma fix_wt_text wt st :
  squeeze (or_empty (text (fst (fix_wt wt st)))) = squeeze (or_empty (text wt)).
Proof.
  unfold fix_wt. cbv zeta.
  pose proof (proj2 (subn_from_squeeze (or_empty (text wt)))) as Q.
  fold (EXTRA_SPACE_subn (or_empty (text wt))) in Q.
  destruct (truthy (text wt));
    try destruct (EXTRA_SPACE_subn (or_empty (text wt))) as [f1 n1];
    try destruct (n1 =? 0); try destruct (needs_preserve f1);
    cbn [tail set_text set_attr];
    (destruct (truthy (tail wt));
     try destruct (EXTRA_SPACE_subn (or_empty (tail wt))) as [f2 n2];
     try destruct (n2 =? 0); cbn [fst text set_tail set_text set_attr or_empty];
     first [reflexivity | exact Q]).
Qed.

Lemma docx_fixed_text wt wt' :
  tag wt = W_T -> docx_fixed wt wt' ->
  squeeze (or_empty (text wt')) = squeeze (or_empty (text wt)).
Proof.
  intros Tg [st ->]. rewrite fix_docx_element_eq, Tg, String.eqb_refl.
  pose proof (fix_wt_text wt st) as Q. destruct (fix_wt wt st) as [e1 st1].
  destruct (map_state fix_docx_element (children wt) st1). exact Q.
Qed.

Lemma concat_texts l :
  List.concat
    (map (fun wt => or_empty (text wt))
       (filter (fun wt => truthy (text wt)) l))
  = flat_map (fun wt => or_empty (text wt)) l.
Proof.
  induction l as [|wt r IH]; [reflexivity|].
  cbn [filter flat_map]. destruct (truthy (text wt)) eqn:T.
  - cbn [map List.concat]. now rewrite IH.
  - now rewrite IH, (truthy_false_or_empty _ T).
Qed.

Lemma docx_fixed_line p p' :
  docx_fixed p p' -> squeeze (docx_line p') = squeeze (docx_line p).
Proof.
  intros [st ->]. unfold docx_line. rewrite !concat_texts.
  pose proof (iter_fix_docx W_T p st) as F.
  pose proof (iter_tag W_T p) as T.
  induction F as [|wt wt' r r' H _ IH]; [reflexivity|].
  cbn [flat_map]. rewrite !squeeze_app, IH.
  - now rewrite (docx_fixed_text wt wt' (T wt (or_introl eq_refl)) H).
  - intros q Hq. apply T. now right.
Qed.

(** X7.  The DOCX pass loses no text: the projection [_plain_docx] of
    the tree after the pass holds the same characters other than spaces
    and no-break spaces, in the same order, as the projection before,
    line breaks between paragraphs included. *)
Theorem docx_content_preserved (root : Element) :
  let after := plain_docx (fst (fst (fix_docx_tree root))) in
  squeeze after = squeeze (plain_docx root) /\
  non_space after = non_space (plain_docx root).
Proof.
  cbv zeta.
  assert (Q : squeeze (plain_docx (fst (fst (fix_docx_tree root))))
              = squeeze (plain_docx root)).
  { unfold fix_docx_tree, plain_docx.
    pose proof (iter_fix_docx W_P root stats0) as F.
    destruct (fix_docx_element root stats0) as [root' st]. cbn [fst] in *.
    apply squeeze_join.
    change (map squeeze (map docx_line (iter W_P root'))
            = map squeeze (map docx_line (iter W_P root))).
    induction F as [|p p' r r' H _ IH]; [reflexivity|].
    cbn [map]. now rewrite IH, (docx_fixed_line p p' H). }
  split; [exact Q|].
  now rewrite <- (non_space_squeeze (plain_docx (fst (fst (fix_docx_tree root))))),
    Q, non_space_squeeze.
Qed.

(** ** The counters and the result of the ODT pass *)

Lemma grew_refl st : grew st st.
Proof. unfold grew. lia. Qed.

Lemma grew_trans a b c : grew a b -> grew b c -> grew a c.
Proof. unfold grew. lia. Qed.

Lemma collapse_grows t st :
  grew st (snd (collapse t st)) /\
  (groups (snd (collapse t st)) = groups st ->
   fst (collapse t st) = t /\ snd (collapse t st) = st).
Proof.
  unfold collapse. destruct (truthy t) eqn:T; [|split; [apply grew_refl|auto]].
  pose proof (subn_counters t st) as S.
  pose proof (runs_in_nonneg t) as N. pose proof (runs_le_removed t) as L.
  pose proof (subn_zero_unchanged (or_empty t)) as U.
  rewrite <- runs_in_subn in U.
  pose proof (removed_in_subn t) as R.
  destruct (EXTRA_SPACE_subn (or_empty t)) as [fixed n]. cbn [fst snd] in *.
  rewrite S. split.
  - unfold grew, bump. cbn. lia.
  - unfold bump. cbn [groups]. intros E.
    assert (R0 : runs_in t = 0) by lia. rewrite (U R0).
    split.
    + destruct t as [[|c r]|]; try discriminate. reflexivity.
    + rewrite (U R0), Z.sub_diag in R.
      rewrite R0, R. apply bump_0.
Qed.

Lemma collapseM_grows t : grows (collapseM t) (fun t' => t' = t).
Proof.
  intros st a st' H. rewrite collapseM_Ok in H. injection H as <- <-.
  apply collapse_grows.
Qed.

Section Counters.
Variable int : pystr -> res Z.

Lemma inspect_child_grows i c :
  grows (inspect_child int i c) (fun r => r = (c, [])).
Proof.
  intros st [c2 sched] st' H. unfold inspect_child, bind, ret, liftR in H.
  assert (K : forall st0, (let (a, st1) := collapse (tail c) st0 in
                           Ok (set_tail c a, @nil (nat * pystr), st1))
                          = Ok (c2, sched, st') ->
              grew st0 st' /\
              (groups st' = groups st0 -> (c2, sched) = (c, []) /\ st' = st0)).
  { intros st0 E. pose proof (collapse_grows (tail c) st0) as [G Z0].
    destruct (collapse (tail c) st0) as [t st1]. cbn [fst snd] in *.
    injection E as <- <- <-. split; [exact G|].
    intros Q. destruct (Z0 Q) as [-> ->]. now rewrite set_tail_same. }
  destruct (String.eqb (tag c) T_S); [|exact (K st H)].
  destruct (repeat_count int c) as [n|]; [|discriminate].
  destruct (1 <? n) eqn:Gt; [|unfold collapseM in H; exact (K st H)].
  injection H as <- <- <-. apply Z.ltb_lt in Gt.
  unfold grew, bump. cbn. split; [lia|]. intros Q. lia.
Qed.

Lemma remove_one_grew p entry st p' st' :
  remove_one p entry st = Ok (p', st') -> grew st st'.
Proof.
  destruct p as [pt cs], entry as [i tl]. unfold remove_one, bind, ret, raise.
  rewrite collapseM_Ok.
  pose proof (collapse_grows (Some (32%N :: tl)) st) as [G1 _].
  set (spt := fst (collapse (Some (32%N :: tl)) st)) in *.
  set (st1 := snd (collapse (Some (32%N :: tl)) st)) in *.
  destruct (Nat.eqb i 0).
  - rewrite collapseM_Ok.
    pose proof (collapse_grows (Some (or_empty pt ++ or_empty spt)) st1) as [G2 _].
    destruct (nth_error cs i); [|discriminate].
    intros [= _ <-]. exact (grew_trans _ _ _ G1 G2).
  - destruct (nth_error cs (i - 1)) as [prev|]; [|discriminate].
    rewrite collapseM_Ok.
    pose proof (collapse_grows
                  (Some (or_empty (tail prev) ++ or_empty spt)) st1) as [G2 _].
    destruct (nth_error _ i); [|discriminate].
    intros [= _ <-]. exact (grew_trans _ _ _ G1 G2).
Qed.

Lemma remove_pass_grew l : forall p st p' st',
  remove_pass p l st = Ok (p', st') -> grew st st'.
Proof.
  induction l as [|e r IH]; intros p st p' st' H.
  - injection H as _ <-. apply grew_refl.
  - cbn [remove_pass] in H. apply bind_Ok in H as (p1 & st1 & H1 & H).
    exact (grew_trans _ _ _ (remove_one_grew _ _ _ _ _ H1) (IH _ _ _ _ H)).
Qed.

Lemma scan_children_grows fe cs :
  Forall (fun c => grows (fe c) (fun c' => c' = c)) cs ->
  forall i, grows (scan_children int fe i cs) (fun r => r = (cs, [])).
Proof.
  induction 1 as [|c r Hc _ IH]; intros i st [cs' rm] st' H.
  - injection H as <- <- <-. split; [apply grew_refl|auto].
  - rewrite scan_children_cons in H.
    apply bind_Ok in H as (c1 & st1 & H1 & H).
    apply bind_Ok in H as ([c2 sched] & st2 & H2 & H).
    apply bind_Ok in H as ([r' rm'] & st3 & H3 & H).
    injection H as <- <- <-.
    destruct (Hc _ _ _ H1) as [G1 Z1].
    destruct (inspect_child_grows i c1 _ _ _ H2) as [G2 Z2].
    destruct (IH (S i) _ _ _ H3) as [G3 Z3].
    split; [exact (grew_trans _ _ _ G1 (grew_trans _ _ _ G2 G3))|].
    intros Q. unfold grew in *.
    destruct Z1 as [-> ->]; [lia|].
    destruct Z2 as [E2 ->]; [lia|]. injection E2 as -> ->.
    destruct Z3 as [E3 ->]; [lia|]. injection E3 as -> ->.
    auto.
Qed.

Lemma fix_element_grows e : grows (fix_element int e) (fun e' => e' = e).
Proof.
  induction e as [tg a tx tl cs IH] using Element_ind.
  intros st e' st' H. rewrite fix_element_eq in H.
  cbn [text children tag attrib tail] in H.
  apply bind_Ok in H as (ptext & st1 & H1 & H).
  apply bind_Ok in H as ([cs1 rm] & st2 & H2 & H).
  apply bind_Ok in H as ([ptext' cs'] & st3 & H3 & H).
  injection H as <- <-.
  destruct (collapseM_grows tx _ _ _ H1) as [G1 Z1].
  destruct (scan_children_grows (fix_element int) cs IH 0%nat _ _ _ H2) as [G2 Z2].
  pose proof (remove_pass_grew _ _ _ _ _ H3) as G3.
  split; [exact (grew_trans _ _ _ G1 (grew_trans _ _ _ G2 G3))|].
  intros Q. unfold grew in *.
  destruct Z1 as [-> ->]; [lia|].
  destruct Z2 as [E2 ->]; [lia|]. injection E2 as -> ->.
  cbn in H3. injection H3 as <- <- <-. auto.
Qed.

(** X8.  When the ODT pass returns, its counters tell whether it
    changed the tree: [0 <= groups <= chars], and [groups] is 0 exactly
    when the tree returned is the tree given, as is [chars]. *)
Theorem odt_counters_and_change root root' g c :
  fix_odt_tree int root = Ok (root', g, c) ->
  0 <= g <= c /\ (g = 0 <-> root' = root) /\ (c = 0 <-> root' = root).
Proof.
  unfold fix_odt_tree. intros H.
  destruct (fix_element int root stats0) as [[r st]|] eqn:F; [|discriminate].
  injection H as -> <- <-.
  destruct (fix_element_grows root _ _ _ F) as [[G1 G2] Z0].
  cbn [stats0 groups chars] in *.
  assert (Same : root' = root -> st = stats0).
  { intros ->. pose proof (fix_element_is_sound int root _ _ _ F) as (N & _).
    rewrite (fix_element_normal_id int root N) in F. now injection F. }
  split; [lia|]. split; split; intros E.
  - now destruct (Z0 E).
  - now rewrite (Same E).
  - assert (E' : groups st = 0) by lia. now destruct (Z0 E').
  - now rewrite (Same E).
Qed.

(** X9.  When the ODT pass returns, no text and no tail below the
    root holds a run of two or more spaces or no-break spaces, and
    neither does the text of the root. *)
Theorem odt_no_run_left root root' g c :
  fix_odt_tree int root = Ok (root', g, c) ->
  no_run (or_empty (text root')) = true /\
  forall d, In d (descendants root') ->
    no_run (or_empty (text d)) = true /\ no_run (or_empty (tail d)) = true.
Proof.
  unfold fix_odt_tree. intros H.
  destruct (fix_element int root stats0) as [[r st]|] eqn:F; [|discriminate].
  injection H as -> _ _.
  pose proof (fix_element_is_sound int root _ _ _ F) as (N & _).
  split.
  - rewrite odt_normal_eq in N. now apply andb_prop in N as [N _].
  - intros d Hd. pose proof (odt_normal_descendants int root' N d Hd) as K.
    unfold kept_child in K. apply andb_prop in K as [K Cl].
    apply andb_prop in K as [Nd _]. rewrite odt_normal_eq in Nd.
    apply andb_prop in Nd as [Cx _]. split; assumption.
Qed.


End Counters.

(** ** The structure the ODT pass keeps *)

Section PrunedProps.
Variable int : pystr -> res Z.

Lemma pruned_shape_eq e :
  pruned_shape int e =
  Node (tag e, attrib e)
    (flat_map (fun c => if removable int c then [] else [pruned_shape int c])
       (children e)).
Proof. destruct e; reflexivity. Qed.

Lemma shape_tag_attrib_ext a b :
  tag a = tag b -> attrib a = attrib b -> children a = children b ->
  shape_of tag_attrib a = shape_of tag_attrib b.
Proof.
  intros T A C. rewrite !shape_of_eq. unfold tag_attrib. now rewrite T, A, C.
Qed.

(** The removal pass keeps the children that are not removable, each the
    same inside. *)
Lemma remove_pass_kept cs :
  forall pre pt st,
  exists pt' pre' kept st' old new,
    remove_pass (pt, pre ++ cs) (rev (entries int (List.length pre) cs)) st
    = Ok ((pt', pre' ++ kept), st') /\
    slot_rel pt pre pt' pre' old new /\
    Forall2 same_inside (filter (fun c => negb (removable int c)) cs) kept.
Proof.
  induction cs as [|c r IH]; intros pre pt st.
  - destruct (slot_rel_refl pt pre) as [slot SR].
    exists pt, pre, [], st, slot, slot. repeat split; [exact SR|constructor].
  - cbn [entries]. rewrite rev_app_distr, remove_pass_app.
    destruct (IH (pre ++ [c]) pt st)
      as (pt1 & pre1 & kept1 & st1 & old1 & new1 & E1 & SR1 & K1).
    rewrite length_app, Nat.add_1_r, <- app_assoc in E1. cbn [app] in E1.
    rewrite E1. clear E1 IH.
    inversion SR1 as [? Hnil|pre0 p t Hsnoc]; subst.
    { destruct pre; discriminate. }
    apply app_inj_tail in Hsnoc as [-> ->].
    rewrite <- app_assoc. cbn [app filter].
    destruct (removable int c) eqn:Rm; cbn [negb rev app remove_pass].
    + unfold bind. destruct pre as [|x pre' _] using rev_ind.
      * cbn [app List.length]. rewrite remove_one_first.
        eexists _, [], kept1, _, pt1, _. cbn [app].
        split; [reflexivity|]. split; [constructor|exact K1].
      * rewrite <- app_assoc. cbn [app].
        rewrite length_app, Nat.add_1_r, remove_one_later.
        eexists pt1, (pre' ++ [_]), kept1, _, (tail x), _.
        rewrite <- app_assoc. cbn [app].
        split; [reflexivity|]. split; [constructor|exact K1].
    + destruct (slot_rel_refl pt1 pre) as [slot SR].
      exists pt1, pre, (set_tail c new1 :: kept1), st1, slot, slot.
      split; [reflexivity|]. split; [exact SR|].
      constructor; [|exact K1]. unfold same_inside. cbn. auto.
Qed.

Lemma scan_children_from cs :
  Forall (fun c => forall st c1 st1, fix_element int c st = Ok (c1, st1) ->
                   shape_of tag_attrib c1 = pruned_shape int c) cs ->
  forall i st cs' rm st',
    scan_children int (fix_element int) i cs st = Ok ((cs', rm), st') ->
    Forall2 (scanned_from int) cs cs'.
Proof.
  induction 1 as [|c r Hc _ IH]; intros i st cs' rm st' H.
  - injection H as <- _ _. constructor.
  - rewrite scan_children_cons in H.
    apply bind_Ok in H as (c1 & st1 & H1 & H).
    apply bind_Ok in H as ([c2 sched] & st2 & H2 & H).
    apply bind_Ok in H as ([r' rm'] & st3 & H3 & H).
    injection H as <- _ _.
    constructor; [|eapply IH; eauto].
    pose proof (fix_element_is_sound int c st c1 st1 H1) as (_ & T1 & A1 & _).
    apply inspect_child_Ok in H2 as (_ & T2 & A2 & _ & C2 & _).
    unfold scanned_from. repeat split; try congruence.
    rewrite (shape_tag_attrib_ext c2 c1 T2 A2 C2). eauto.
Qed.

Lemma kept_shapes cs0 cs kept :
  Forall2 (scanned_from int) cs0 cs ->
  Forall2 same_inside (filter (fun c => negb (removable int c)) cs) kept ->
  map (shape_of tag_attrib) kept
  = flat_map (fun c => if removable int c then [] else [pruned_shape int c]) cs0.
Proof.
  intros F. revert kept. induction F as [|c c2 r r2 (T & A & S) _ IH]; intros kept K.
  - inversion K. reflexivity.
  - cbn [filter flat_map] in *. rewrite (removable_ext int c2 c T A) in K.
    destruct (removable int c); cbn [negb] in K.
    + cbn [app]. now apply IH.
    + inversion K as [|? k ? kr (Tk & Ak & _ & Ck) Kr]; subst.
      cbn [map app]. rewrite (IH _ Kr). f_equal.
      now rewrite (shape_tag_attrib_ext k c2 Tk Ak Ck).
Qed.

Lemma fix_element_shape e :
  forall st e' st', fix_element int e st = Ok (e', st') ->
  shape_of tag_attrib e' = pruned_shape int e.
Proof.
  induction e as [tg a tx tl cs0 IH] using Element_ind. intros st e' st' H.
  set (e := mkElement tg a tx tl cs0) in *.
  assert (Sound : Forall (fix_element_sound int) (children e)).
  { rewrite Forall_forall. intros c _. apply fix_element_is_sound. }
  destruct (fix_element_passes int e st e' st' Sound H)
    as (cs & st2 & Sc & _ & _ & Rp & T & A & _).
  apply (scan_children_from cs0 IH) in Sc.
  destruct (remove_pass_kept cs [] (fst (collapse (text e) st)) st2)
    as (pt' & pre' & kept & st3 & old & new & E & SR & K).
  cbn [app List.length] in E. rewrite E in Rp.
  inversion SR as [? Hpt|? ? ? Hsnoc]; subst old new pre';
    [|destruct pre0; discriminate].
  injection Rp as _ Ec _. cbn [app] in Ec.
  rewrite shape_of_eq, pruned_shape_eq. unfold tag_attrib at 1.
  rewrite T, A, <- Ec. cbn [children e]. f_equal.
  exact (kept_shapes cs0 cs kept Sc K).
Qed.

(** X12.  When the ODT pass returns, the tags and attributes of the
    tree returned are those of the input with every removable marker
    (a [text:s] with a count above 1) taken out together with what it
    contains, and nothing else is removed, added or moved; the tail of
    the root is as it was. *)
Theorem odt_structure_kept root root' g c :
  fix_odt_tree int root = Ok (root', g, c) ->
  shape_of tag_attrib root' = pruned_shape int root /\
  tail root' = tail root.
Proof.
  unfold fix_odt_tree. intros H.
  destruct (fix_element int root stats0) as [[r st]|] eqn:F; [|discriminate].
  injection H as -> _ _. split.
  - exact (fix_element_shape root _ _ _ F).
  - now destruct (fix_element_is_sound int root _ _ _ F) as (_ & _ & _ & L).
Qed.

End PrunedProps.

(** ** A single marker *)

Lemma no_run_app_inv a b :
  no_run (a ++ b) = true -> no_run a = true /\ no_run b = true.
Proof.
  induction a as [|c r IH]; intros H; [auto|].
  cbn [app no_run] in *. apply andb_prop in H as [H1 H2].
  destruct (IH H2) as [Hr Hb]. split; [|exact Hb].
  rewrite Hr, andb_true_r. apply negb_true_iff. apply negb_true_iff in H1.
  destruct (is_space_char c); [|reflexivity]. cbn [andb] in *.
  destruct r as [|d r']; [reflexivity|exact H1].
Qed.

Lemma splice_no_run before b st :
  no_run (or_empty before ++ 32%N :: b) = true ->
  splice before b st = (Some (or_empty before ++ 32%N :: b), st).
Proof.
  intros H. destruct (no_run_app_inv _ _ H) as [_ Hb]. unfold splice.
  rewrite (collapse_clean_id (Some (32%N :: b)) st Hb). cbn [or_empty].
  now rewrite (collapse_clean_id (Some (or_empty before ++ 32%N :: b)) st H).
Qed.

Section Scenarios.
Variable int : pystr -> res Z.

Lemma scan_marker i m N st :
  tag m = T_S -> odt_normal int m = true ->
  repeat_count int m = Ok N -> 1 < N ->
  scan_children int (fix_element int) i [m] st
  = Ok (([m], [(i, or_empty (tail m))]), bump 1 (N - 1) st).
Proof.
  intros Tg Nm Rc Gt. rewrite scan_children_cons. unfold bind.
  rewrite (fix_element_normal_id int m Nm).
  rewrite (inspect_child_marker int i m N st Tg Rc Gt). reflexivity.
Qed.

(** X10.  A marker with a count N > 1 that is the only child of its
    parent, its own content already normal: the pass removes it and
    appends one space and the tail of the marker to the text of the
    parent, counting one run and N - 1 characters, provided the joined
    text holds no run of spaces. *)
Theorem odt_first_marker tg a tx tl m N st :
  tag m = T_S -> odt_normal int m = true ->
  repeat_count int m = Ok N -> 1 < N ->
  no_run (or_empty tx ++ 32%N :: or_empty (tail m)) = true ->
  fix_element int (mkElement tg a tx tl [m]) st
  = Ok (mkElement tg a (Some (or_empty tx ++ 32%N :: or_empty (tail m))) tl [],
        mkStats (groups st + 1) (chars st + (N - 1))).
Proof.
  intros Tg Nm Rc Gt H.
  destruct (no_run_app_inv _ _ H) as [Hx _].
  rewrite fix_element_eq. cbn [text children tag attrib tail].
  unfold bind at 1. rewrite collapseM_Ok, (collapse_clean_id tx st Hx).
  cbn [fst snd]. unfold bind at 1.
  rewrite (scan_marker 0%nat m N st Tg Nm Rc Gt).
  cbn [rev app remove_pass]. unfold bind.
  rewrite remove_one_first, (splice_no_run tx _ _ H). reflexivity.
Qed.


End Scenarios.

(** The first self-test case. *)
Lemma odt_first_marker_example :
  fix_element py_int
    (paragraph (Some (lit "cheers")) [marker "44" (Some (lit "erupting"))])
    stats0
  = Ok (paragraph (Some (lit "cheers erupting")) [], mkStats 1 43).
Proof.
  apply (odt_first_marker py_int T_P [] (Some (lit "cheers")) None
           (marker "44" (Some (lit "erupting"))) 44 stats0);
    reflexivity.
Defined.


(** ** The archive plumbing *)

Lemma run_log_pbind {W A B} (answer : forall R, call R -> W -> res R * W)
  (m : prog A) (f : A -> prog B) :
  forall w,
  run_log answer (pbind m f) w =
  let '(l1, o1, w1) := run_log answer m w in
  match o1 with
  | Ok a => let '(l2, o2, w2) := run_log answer (f a) w1 in (l1 ++ l2, o2, w2)
  | Raise e => (l1, Raise e, w1)
  end.
Proof.
  induction m as [a|e|R c k IH]; intros w; cbn [pbind run_log].
  - now destruct (run_log answer (f a) w) as [[l o] w'].
  - reflexivity.
  - destruct (answer R c w) as [r w1]. rewrite IH.
    destruct (run_log answer (k r) w1) as [[l1 o1] w2].
    destruct o1 as [a|e]; [|reflexivity].
    now destruct (run_log answer (f a) w2) as [[l2 o2] w3].
Qed.

Lemma run_log_catch {W A} (answer : forall R, call R -> W -> res R * W)
  (m : prog A) (h : exn -> prog A) :
  forall w,
  run_log answer (catch m h) w =
  let '(l1, o1, w1) := run_log answer m w in
  match o1 with
  | Ok a => (l1, Ok a, w1)
  | Raise e => let '(l2, o2, w2) := run_log answer (h e) w1 in (l1 ++ l2, o2, w2)
  end.
Proof.
  induction m as [a|e|R c k IH]; intros w; cbn [catch run_log].
  - reflexivity.
  - now destruct (run_log answer (h e) w) as [[l o] w'].
  - destruct (answer R c w) as [r w1]. rewrite IH.
    destruct (run_log answer (k r) w1) as [[l1 o1] w2].
    destruct o1 as [a|e]; [reflexivity|].
    now destruct (run_log answer (h e) w2) as [[l2 o2] w3].
Qed.

Lemma run_log_call {W R} (answer : forall R, call R -> W -> res R * W)
  (c : call R) w :
  run_log answer (do_call c) w =
  ([Event c (fst (answer R c w))], fst (answer R c w), snd (answer R c w)).
Proof.
  cbn [do_call run_log]. destruct (answer R c w) as [[v|e] w1]; reflexivity.
Qed.

Lemma always_pbind {A B} P (m : prog A) (f : A -> prog B) :
  always P m -> (forall a, always P (f a)) -> always P (pbind m f).
Proof.
  intros Hm Hf W answer w. rewrite run_log_pbind.
  specialize (Hm W answer w).
  destruct (run_log answer m w) as [[l1 o1] w1]. cbn [fst] in Hm.
  destruct o1 as [a|e]; [|exact Hm].
  specialize (Hf a W answer w1).
  destruct (run_log answer (f a) w1) as [[l2 o2] w2]. cbn [fst] in *.
  apply Forall_app. now split.
Qed.

Lemma always_catch {A} P (m : prog A) (h : exn -> prog A) :
  always P m -> (forall e, always P (h e)) -> always P (catch m h).
Proof.
  intros Hm Hh W answer w. rewrite run_log_catch.
  specialize (Hm W answer w).
  destruct (run_log answer m w) as [[l1 o1] w1]. cbn [fst] in Hm.
  destruct o1 as [a|e]; [exact Hm|].
  specialize (Hh e W answer w1).
  destruct (run_log answer (h e) w1) as [[l2 o2] w2]. cbn [fst] in *.
  apply Forall_app. now split.
Qed.

Lemma always_call {R} (P : event -> Prop) (c : call R) :
  (forall r, P (Event c r)) -> always P (do_call c).
Proof.
  intros H W answer w. rewrite run_log_call. cbn [fst]. constructor; auto.
Qed.

Lemma always_Return {A} P (a : A) : always P (Return a).
Proof. intros W answer w. constructor. Qed.

Lemma always_Throw {A} P e : always P (@Throw A e).
Proof. intros W answer w. constructor. Qed.

Lemma always_of_res {A} P (r : res A) : always P (of_res r).
Proof. destruct r; [apply always_Return|apply always_Throw]. Qed.

Lemma always_with_zip {A} P path mode (body : Z -> prog A) :
  (forall r, P (Event (ZipOpen path mode) r)) ->
  (forall zf r, P (Event (ZipClose zf) r)) ->
  (forall zf, always P (body zf)) ->
  always P (with_zip path mode body).
Proof.
  intros Ho Hc Hb. unfold with_zip.
  apply always_pbind; [now apply always_call|]. intros zf.
  apply always_pbind.
  - apply always_catch; [apply Hb|]. intros e.
    apply always_pbind; [now apply always_call|]. intros _. apply always_Throw.
  - intros a. apply always_pbind; [now apply always_call|].
    intros _. apply always_Return.
Qed.

Lemma always_loop P entry fix_xml plain zin zout before items :
  (forall name r, P (Event (ZipRead zin name) r)) ->
  (forall item data r, P (Event (ZipWritestr zout item data) r)) ->
  forall acc,
    always P (archive_loop entry fix_xml plain zin zout before items acc).
Proof.
  intros Hr Hw. induction items as [|item rest IH]; intros [[tg tc] after].
  - apply always_Return.
  - cbn [archive_loop]. fold (archive_loop entry fix_xml plain zin zout before).
    apply always_pbind; [now apply always_call|].
    intros data. apply always_pbind.
    + destruct (pystr_eqb (filename item) entry); [|apply always_Return].
      apply always_pbind; [apply always_of_res|]. intros [[d g] c].
      apply always_pbind; [apply always_of_res|]. intros a. apply always_Return.
    + intros [data' acc']. apply always_pbind; [now apply always_call|].
      intros _. apply IH.
Qed.

Lemma rewrite_archive_eq suffix entry fix_xml plain inp out :
  rewrite_archive suffix entry fix_xml plain inp out =
  ('(tmp_fd, tmp) <- do_call (Mkstemp suffix) ;;
   _ <- do_call (OsClose tmp_fd) ;;
   catch
     ('(tg, tc, before, after) <- archive_copy entry fix_xml plain inp tmp ;;
      _ <- do_call (ShutilMove tmp out) ;;
      Return (mkResult tg tc before after))
     (archive_cleanup tmp))%prog.
Proof. reflexivity. Qed.

Lemma passes_app rel l1 : forall prev l2,
  passes rel prev l1 -> (forall p, passes rel p l2) ->
  passes rel prev (l1 ++ l2).
Proof.
  induction l1 as [|ev r IH]; intros prev l2 H1 H2; [apply H2|].
  cbn [app passes] in *. destruct H1 as [H H1]. split; [exact H|].
  now apply IH.
Qed.

Lemma passes_all_pbind {A B} rel (m : prog A) (f : A -> prog B) :
  passes_all rel m -> (forall a, passes_all rel (f a)) ->
  passes_all rel (pbind m f).
Proof.
  intros Hm Hf prev W answer w. rewrite run_log_pbind.
  specialize (Hm prev W answer w).
  destruct (run_log answer m w) as [[l1 o1] w1]. cbn [fst] in Hm.
  destruct o1 as [a|e]; [|exact Hm].
  pose proof (fun p => Hf a p W answer w1) as H2.
  destruct (run_log answer (f a) w1) as [[l2 o2] w2]. cbn [fst] in *.
  now apply passes_app.
Qed.

Lemma passes_all_catch {A} rel (m : prog A) (h : exn -> prog A) :
  passes_all rel m -> (forall e, passes_all rel (h e)) ->
  passes_all rel (catch m h).
Proof.
  intros Hm Hh prev W answer w. rewrite run_log_catch.
  specialize (Hm prev W answer w).
  destruct (run_log answer m w) as [[l1 o1] w1]. cbn [fst] in Hm.
  destruct o1 as [a|e]; [exact Hm|].
  pose proof (fun p => Hh e p W answer w1) as H2.
  destruct (run_log answer (h e) w1) as [[l2 o2] w2]. cbn [fst] in *.
  now apply passes_app.
Qed.

Lemma passes_all_call {R} rel (c : call R) :
  (forall r, write_of (Event c r) = None) -> passes_all rel (do_call c).
Proof.
  intros H prev W answer w. rewrite run_log_call. cbn [fst passes].
  now rewrite H.
Qed.

Lemma passes_all_Return {A} rel (a : A) : passes_all rel (Return a).
Proof. intros prev W answer w. exact I. Qed.

Lemma passes_all_Throw {A} rel e : passes_all rel (@Throw A e).
Proof. intros prev W answer w. exact I. Qed.

Lemma passes_all_of_res {A} rel (r : res A) : passes_all rel (of_res r).
Proof. destruct r; [apply passes_all_Return|apply passes_all_Throw]. Qed.

Lemma passes_all_with_zip {A} rel path mode (body : Z -> prog A) :
  (forall zf, passes_all rel (body zf)) ->
  passes_all rel (with_zip path mode body).
Proof.
  intros Hb. unfold with_zip.
  apply passes_all_pbind; [now apply passes_all_call|]. intros zf.
  apply passes_all_pbind.
  - apply passes_all_catch; [apply Hb|]. intros e.
    apply passes_all_pbind; [now apply passes_all_call|]. intros _.
    apply passes_all_Throw.
  - intros a. apply passes_all_pbind; [now apply passes_all_call|].
    intros _. apply passes_all_Return.
Qed.

Lemma pystr_eqb_false a b : pystr_eqb a b = false -> a <> b.
Proof. intros H E. apply pystr_eqb_eq in E. congruence. Qed.

Lemma passes_all_loop entry fix_xml plain zin zout before items :
  forall acc,
    passes_all (written_from entry fix_xml)
      (archive_loop entry fix_xml plain zin zout before items acc).
Proof.
  induction items as [|item rest IH]; intros [[tg tc] after].
  - apply passes_all_Return.
  - intros prev W answer w. cbn [archive_loop].
    fold (archive_loop entry fix_xml plain zin zout before).
    rewrite run_log_pbind, run_log_call.
    destruct (answer _ (ZipRead zin (filename item)) w) as [[data|e] w1];
      cbn [fst snd]; [|cbn; auto].
    rewrite run_log_pbind.
    set (rd := Event (ZipRead zin (filename item)) (Ok data)).
    assert (K : forall data' acc',
               written_from entry fix_xml item data data' ->
               passes (written_from entry fix_xml) (Some rd)
                 (fst (fst (run_log answer
                    (pbind (do_call (ZipWritestr zout item data'))
                       (fun _ => archive_loop entry fix_xml plain zin zout
                                   before rest acc')) w1)))).
    { intros data' acc' Hd. rewrite run_log_pbind, run_log_call.
      destruct (answer _ (ZipWritestr zout item data') w1) as [[[]|e] w2];
        cbn [fst snd].
      - pose proof (IH acc' (Some (Event (ZipWritestr zout item data') (Ok tt)))
                      W answer w2) as L.
        destruct (run_log answer _ w2) as [[l o] w3]. cbn [fst app passes] in *.
        split; [|exact L]. exists rd, data. now repeat split.
      - cbn [fst passes]. split; [|exact I]. exists rd, data.
        now repeat split. }
    destruct (pystr_eqb (filename item) entry) eqn:Q.
    + rewrite run_log_pbind.
      destruct (fix_xml data) as [[[d g] c]|e] eqn:F; cbn [of_res run_log];
        [|cbn; auto].
      rewrite run_log_pbind.
      destruct (plain d) as [a|e]; cbn [of_res run_log]; [|cbn; auto].
      specialize (K d (tg + g, tc + c, a)).
      destruct (run_log answer _ w1) as [[l o] w3]. cbn [fst app passes] in *.
      split; [exact I|]. apply K. unfold written_from. rewrite Q, F. eauto.
    + cbn [run_log]. specialize (K data (tg, tc, after)).
      destruct (run_log answer _ w1) as [[l o] w3]. cbn [fst app passes] in *.
      split; [exact I|]. apply K. unfold written_from. now rewrite Q.
Qed.

Lemma passes_split rel ev l2 item data :
  write_of ev = Some (item, data) ->
  forall l1 prev, passes rel prev (l1 ++ ev :: l2) ->
  exists p d0, ((l1 = [] /\ prev = Some p) \/ exists l0, l1 = l0 ++ [p]) /\
               read_of p = Some (filename item, d0) /\ rel item d0 data.
Proof.
  intros Hw. induction l1 as [|x r IH]; intros prev H.
  - cbn [app passes] in H. rewrite Hw in H. destruct H as [H _].
    destruct H as (p & d0 & E & Rd & Hr). exists p, d0. auto.
  - cbn [app passes] in H. destruct H as [_ H].
    destruct (IH _ H) as (p & d0 & [[-> E]|[l0 ->]] & Rd & Hr);
      exists p, d0; split; auto.
    + injection E as ->. right. now exists [].
    + right. now exists (x :: l0).
Qed.

Section ArchiveProps.
Variables (suffix entry : pystr).
Variable fix_xml : bytes -> res (bytes * Z * Z).
Variable plain : bytes -> res pystr.
Variables (inp out : pystr).

Lemma archive_copy_always P tmp :
  (forall r, P (Event (ZipOpen inp ModeRead) r)) ->
  (forall r, P (Event (ZipOpen tmp ModeWriteDeflated) r)) ->
  (forall zf r, P (Event (ZipClose zf) r)) ->
  (forall zf name r, P (Event (ZipRead zf name) r)) ->
  (forall zf r, P (Event (ZipInfolist zf) r)) ->
  (forall zf item data r, P (Event (ZipWritestr zf item data) r)) ->
  always P (archive_copy entry fix_xml plain inp tmp).
Proof.
  intros Hi Ht Hc Hr Hl Hw. unfold archive_copy.
  apply always_with_zip; auto. intros zin.
  apply always_pbind; [now apply always_call|]. intros doc.
  apply always_pbind; [apply always_of_res|]. intros before.
  apply always_with_zip; auto. intros zout.
  apply always_pbind; [now apply always_call|]. intros items.
  apply always_loop; auto.
Qed.

Lemma archive_cleanup_always P tmp e :
  (forall r, P (Event (PathExists tmp) r)) ->
  (forall r, P (Event (Unlink tmp) r)) ->
  always P (archive_cleanup tmp e).
Proof.
  intros Hp Hu. unfold archive_cleanup.
  apply always_pbind; [now apply always_call|]. intros ex.
  apply always_pbind; [|intros _; apply always_Throw].
  destruct ex; [now apply always_call|apply always_Return].
Qed.

(** X14.  What [fix_docx] / [fix_odt] touch.  Against any environment
    the first call is [mkstemp] with the suffix of the dialect; if it
    raises, nothing else is called and the exception is the outcome.
    Otherwise, with [tmp] the path it returned, every archive opened for
    reading is [inp], every archive opened for writing is [tmp], the
    only move is from [tmp] to [out], and the only path asked about or
    deleted is [tmp]: [inp] is never written and [out] is reached by the
    move alone. *)
Theorem archive_calls_allowed W
  (answer : forall R, call R -> W -> res R * W) (w : W) :
  let '(log, outcome, _) :=
    run_log answer (rewrite_archive suffix entry fix_xml plain inp out) w in
  exists r0 rest,
    log = Event (Mkstemp suffix) r0 :: rest /\
    match r0 with
    | Raise e => rest = [] /\ outcome = Raise e
    | Ok (_, tmp) => Forall (allowed inp out tmp) rest
    end.
Proof.
  rewrite rewrite_archive_eq, run_log_pbind, run_log_call.
  destruct (answer _ (Mkstemp suffix) w) as [[[fd tmp]|e] w1]; cbn [fst snd].
  2:{ exists (Raise e), []. auto. }
  assert (A : always (allowed inp out tmp)
                (pbind (do_call (OsClose fd))
                   (fun _ =>
                      catch
                        (pbind (archive_copy entry fix_xml plain inp tmp)
                           (fun '(tg, tc, before, after) =>
                              pbind (do_call (ShutilMove tmp out))
                                (fun _ => Return (mkResult tg tc before after))))
                        (archive_cleanup tmp)))).
  { apply always_pbind; [apply always_call; intros; exact I|]. intros _.
    apply always_catch.
    - apply always_pbind.
      + apply archive_copy_always; intros; cbn; auto.
      + intros [[[tg tc] before] after].
        apply always_pbind; [apply always_call; intros; cbn; auto|].
        intros _. apply always_Return.
    - intros e. apply archive_cleanup_always; intros; reflexivity. }
  specialize (A W answer w1).
  destruct (run_log answer _ w1) as [[l o] w2]. cbn [fst app] in *.
  exists (Ok (fd, tmp)), l. split; [reflexivity|exact A].
Qed.

(** X16.  Every entry [fix_docx] / [fix_odt] write, in any run: a
    [writestr] of an entry comes right after the successful read of the
    entry of the same name from the input archive; the bytes written are
    the bytes read when the name is not the document entry, and the
    bytes [fix_xml] returned for the bytes read when it is. *)
Theorem archive_writes W
  (answer : forall R, call R -> W -> res R * W) (w : W) :
  forall l1 ev l2 item data,
    fst (fst (run_log answer
                (rewrite_archive suffix entry fix_xml plain inp out) w))
    = l1 ++ ev :: l2 ->
    write_of ev = Some (item, data) ->
    exists l0 rd d0,
      l1 = l0 ++ [rd] /\ read_of rd = Some (filename item, d0) /\
      (filename item <> entry -> data = d0) /\
      (filename item = entry -> exists g c, fix_xml d0 = Ok (data, g, c)).
Proof.
  assert (P : passes_all (written_from entry fix_xml)
                (rewrite_archive suffix entry fix_xml plain inp out)).
  { rewrite rewrite_archive_eq.
    apply passes_all_pbind; [now apply passes_all_call|]. intros [fd tmp].
    apply passes_all_pbind; [now apply passes_all_call|]. intros _.
    apply passes_all_catch.
    - apply passes_all_pbind.
      + unfold archive_copy. apply passes_all_with_zip. intros zin.
        apply passes_all_pbind; [now apply passes_all_call|]. intros doc.
        apply passes_all_pbind; [apply passes_all_of_res|]. intros before.
        apply passes_all_with_zip. intros zout.
        apply passes_all_pbind; [now apply passes_all_call|]. intros items.
        apply passes_all_loop.
      + intros [[[tg tc] before] after].
        apply passes_all_pbind; [now apply passes_all_call|]. intros _.
        apply passes_all_Return.
    - intros e. unfold archive_cleanup.
      apply passes_all_pbind; [now apply passes_all_call|]. intros ex.
      apply passes_all_pbind; [|intros _; apply passes_all_Throw].
      destruct ex; [now apply passes_all_call|apply passes_all_Return]. }
  intros l1 ev l2 item data E Hw.
  specialize (P None W answer w). rewrite E in P.
  destruct (passes_split _ ev l2 item data Hw l1 None P)
    as (p & d0 & [[_ Q]|[l0 ->]] & Rd & Hr); [discriminate|].
  exists l0, p, d0. repeat split; auto; unfold written_from in Hr;
    destruct (pystr_eqb (filename item) entry) eqn:Q; auto.
  - intros Hn. apply pystr_eqb_eq in Q. contradiction.
  - intros He. apply pystr_eqb_false in Q. contradiction.
Qed.

Lemma archive_cleanup_run W
  (answer : forall R, call R -> W -> res R * W) tmp e w :
  exists r post e' w',
    run_log answer (archive_cleanup tmp e) w
    = (Event (PathExists tmp) r :: post, Raise e', w') /\
    match r with
    | Ok true => exists r2, post = [Event (Unlink tmp) r2]
    | _ => post = []
    end.
Proof.
  unfold archive_cleanup. rewrite run_log_pbind, run_log_call.
  destruct (answer _ (PathExists tmp) w) as [[[|]|e0] w1]; cbn [fst snd].
  - rewrite run_log_pbind, run_log_call.
    destruct (answer _ (Unlink tmp) w1) as [[[]|e1] w2];
      cbn [fst snd run_log app]; do 4 eexists; (split; [reflexivity|]);
      cbn; eexists; reflexivity.
  - cbn. do 4 eexists. split; reflexivity.
  - do 4 eexists. split; reflexivity.
Qed.

(** X15.  The runs of [fix_docx] / [fix_odt] against any environment.
    [mkstemp] raises: nothing else is called.  [os.close] raises: the
    exception is the outcome and the temporary file is left behind.
    Otherwise the calls of the two [with] blocks follow, archive calls
    only, and then either the run returns, its last call being the one
    successful move of [tmp] to [out]; or it raises, after the archive
    calls or after a move that raised, and the [except] clause asks
    whether [tmp] exists and deletes it when, and only when, the answer
    is true. *)
Theorem archive_run_shape W
  (answer : forall R, call R -> W -> res R * W) (w : W) :
  let '(log, outcome, _) :=
    run_log answer (rewrite_archive suffix entry fix_xml plain inp out) w in
  (exists e, log = [Event (Mkstemp suffix) (Raise e)] /\ outcome = Raise e) \/
  exists fd tmp,
    (exists e,
        log = [Event (Mkstemp suffix) (Ok (fd, tmp));
               Event (OsClose fd) (Raise e)] /\ outcome = Raise e) \/
    exists copy,
      Forall zip_event copy /\
      ((exists result,
           outcome = Ok result /\
           log = Event (Mkstemp suffix) (Ok (fd, tmp))
                 :: Event (OsClose fd) (Ok tt)
                 :: copy ++ [Event (ShutilMove tmp out) (Ok tt)]) \/
       (exists e tried r post,
           outcome = Raise e /\
           log = Event (Mkstemp suffix) (Ok (fd, tmp))
                 :: Event (OsClose fd) (Ok tt)
                 :: copy ++ tried ++ Event (PathExists tmp) r :: post /\
           (tried = [] \/
            exists e0, tried = [Event (ShutilMove tmp out) (Raise e0)]) /\
           match r with
           | Ok true => exists r2, post = [Event (Unlink tmp) r2]
           | _ => post = []
           end)).
Proof.
  rewrite rewrite_archive_eq, run_log_pbind, run_log_call.
  destruct (answer _ (Mkstemp suffix) w) as [[[fd tmp]|e] w1]; cbn [fst snd].
  2:{ left. eauto. }
  rewrite run_log_pbind, run_log_call.
  destruct (answer _ (OsClose fd) w1) as [[[]|e] w2]; cbn [fst snd].
  2:{ right. exists fd, tmp. left. exists e. split; reflexivity. }
  rewrite run_log_catch, run_log_pbind.
  assert (Z : always zip_event (archive_copy entry fix_xml plain inp tmp))
    by (apply archive_copy_always; intros; exact I).
  specialize (Z W answer w2).
  destruct (run_log answer (archive_copy entry fix_xml plain inp tmp) w2)
    as [[copy o] w3]. cbn [fst] in Z.
  destruct o as [[[[tg tc] before] after]|e].
  - rewrite run_log_pbind, run_log_call.
    destruct (answer _ (ShutilMove tmp out) w3) as [[[]|e] w4];
      cbn [fst snd run_log].
    + right. exists fd, tmp. right. exists copy. split; [exact Z|].
      left. eexists. split; reflexivity.
    + destruct (archive_cleanup_run W answer tmp e w4)
        as (r & post & e' & w5 & -> & Hp).
      right. exists fd, tmp. right. exists copy. split; [exact Z|].
      right. exists e', [Event (ShutilMove tmp out) (Raise e)], r, post.
      cbn [app]. rewrite <- !app_assoc. cbn [app]. eauto 10.
  - destruct (archive_cleanup_run W answer tmp e w3)
      as (r & post & e' & w5 & -> & Hp).
    right. exists fd, tmp. right. exists copy. split; [exact Z|].
    right. exists e', [], r, post. cbn [app]. eauto 10.
Qed.

End ArchiveProps.

(** ** Examples *)

(** The self-test document with the marker of count 44. *)
Lemma odt_counters_and_change_example :
  0 <= 1 <= 43 /\
  (1 = 0 <->
   document (paragraph (Some (lit "cheers erupting")) []) =
   document (paragraph (Some (lit "cheers"))
               [marker "44" (Some (lit "erupting"))])) /\
  (43 = 0 <->
   document (paragraph (Some (lit "cheers erupting")) []) =
   document (paragraph (Some (lit "cheers"))
               [marker "44" (Some (lit "erupting"))])).
Proof.
  apply (odt_counters_and_change py_int
           (document (paragraph (Some (lit "cheers"))
                        [marker "44" (Some (lit "erupting"))]))
           (document (paragraph (Some (lit "cheers erupting")) [])) 1 43).
  reflexivity.
Defined.

(** A paragraph with a run of three spaces. *)
Lemma odt_no_run_left_example :
  no_run (or_empty (text (document (paragraph (Some (lit "a b")) [])))) = true /\
  forall d, In d (descendants (document (paragraph (Some (lit "a b")) []))) ->
    no_run (or_empty (text d)) = true /\ no_run (or_empty (tail d)) = true.
Proof.
  apply (odt_no_run_left py_int
           (document (paragraph (Some (lit "a   b")) []))
           (document (paragraph (Some (lit "a b")) [])) 1 2).
  reflexivity.
Defined.


(** A paragraph whose only child is a removable marker. *)
Lemma odt_structure_kept_example :
  shape_of tag_attrib (document (paragraph (Some (lit "a b")) []))
  = pruned_shape py_int
      (document (paragraph (Some (lit "a"))
                   [marker "3" (Some (lit "b"))])) /\
  tail (document (paragraph (Some (lit "a b")) []))
  = tail (document (paragraph (Some (lit "a"))
                      [marker "3" (Some (lit "b"))])).
Proof.
  apply (odt_structure_kept py_int
           (document (paragraph (Some (lit "a"))
                        [marker "3" (Some (lit "b"))]))
           (document (paragraph (Some (lit "a b")) [])) 1 2).
  reflexivity.
Defined.

(** The run of the ODT plumbing in [two_entries], at the write of the
    entry "mimetype". *)
Lemma archive_writes_example :
  exists l0 rd d0,
    [Event (Mkstemp (lit ".odt")) (Ok (3, lit "t"));
     Event (OsClose 3) (Ok tt);
     Event (ZipOpen (lit "in.odt") ModeRead) (Ok 4);
     Event (ZipRead 4 (lit "content.xml")) (Ok [x01; x02]);
     Event (ZipOpen (lit "t") ModeWriteDeflated) (Ok 4);
     Event (ZipInfolist 4)
       (Ok [mkZipInfo (lit "content.xml") 0; mkZipInfo (lit "mimetype") 1]);
     Event (ZipRead 4 (lit "content.xml")) (Ok [x01; x02]);
     Event (ZipWritestr 4 (mkZipInfo (lit "content.xml") 0) [x01]) (Ok tt);
     Event (ZipRead 4 (lit "mimetype")) (Ok [x01; x02])]
    = l0 ++ [rd] /\
    read_of rd = Some (filename (mkZipInfo (lit "mimetype") 1), d0) /\
    (filename (mkZipInfo (lit "mimetype") 1) <> lit "content.xml" ->
     [x01; x02] = d0) /\
    (filename (mkZipInfo (lit "mimetype") 1) = lit "content.xml" ->
     exists g c,
       (fun d : bytes => Ok (firstn 1 d, 1, 1)) d0 = Ok ([x01; x02], g, c)).
Proof.
  apply (archive_writes (lit ".odt") (lit "content.xml")
           (fun d => Ok (firstn 1 d, 1, 1)) (fun _ => Ok (lit "p"))
           (lit "in.odt") (lit "out.odt") unit two_entries tt
           _ (Event (ZipWritestr 4 (mkZipInfo (lit "mimetype") 1) [x01; x02])
                (Ok tt))
           [Event (ZipClose 4) (Ok tt); Event (ZipClose 4) (Ok tt);
            Event (ShutilMove (lit "t") (lit "out.odt")) (Ok tt)]);
    reflexivity.
Defined.

(** ** The passes on bytes *)

Section Bytes.
Variable fromstring : bytes -> res Element.
Variable tostring : Element -> bytes.
Variable int : pystr -> res Z.

(** X17.  [_fix_docx_xml] on bytes.  When the XML library reads back
    the tree it printed, the bytes returned for a document are a fixed
    point: given again they come back as they are, with both counters
    0, and [_plain_docx] of them is the projection of the tree
    returned. *)
Theorem docx_bytes_stable b root root' g c :
  fromstring b = Ok root ->
  fix_docx_tree root = (root', g, c) ->
  fromstring (tostring root') = Ok root' ->
  _fix_docx_xml fromstring tostring b = Ok (tostring root', g, c) /\
  _fix_docx_xml fromstring tostring (tostring root')
  = Ok (tostring root', 0, 0) /\
  _plain_docx fromstring (tostring root') = Ok (plain_docx root').
Proof.
  intros P F R. unfold _fix_docx_xml, _plain_docx. rewrite P, F, R.
  pose proof (docx_idempotent root) as I. rewrite F in I. cbn [fst] in I.
  rewrite I. auto.
Qed.

(** X18.  [_fix_odt_xml] on bytes.  When the XML library reads back
    the tree it printed, the bytes returned for a document are a fixed
    point: given again they come back as they are, with both counters
    0. *)
Theorem odt_bytes_stable b root root' g c :
  fromstring b = Ok root ->
  fix_odt_tree int root = Ok (root', g, c) ->
  fromstring (tostring root') = Ok root' ->
  _fix_odt_xml fromstring tostring int b = Ok (tostring root', g, c) /\
  _fix_odt_xml fromstring tostring int (tostring root')
  = Ok (tostring root', 0, 0).
Proof.
  intros P F R. unfold _fix_odt_xml. rewrite P, F, R. split; [reflexivity|].
  unfold fix_odt_tree in *.
  destruct (fix_element int root stats0) as [[r st]|] eqn:E; [|discriminate].
  injection F as -> _ _.
  apply fix_element_is_sound in E as (N & _).
  now rewrite (fix_element_normal_id int root' N).
Qed.

End Bytes.

(** A [w:t] with a run of three spaces. *)
Lemma docx_bytes_stable_example :
  _fix_docx_xml
    (parse_two (mkElement W_T [] (Some (lit "a   b")) None [])
               (mkElement W_T [] (Some (lit "a b")) None []))
    print_one [x00]
  = Ok (print_one (mkElement W_T [] (Some (lit "a b")) None []), 1, 2) /\
  _fix_docx_xml
    (parse_two (mkElement W_T [] (Some (lit "a   b")) None [])
               (mkElement W_T [] (Some (lit "a b")) None []))
    print_one (print_one (mkElement W_T [] (Some (lit "a b")) None []))
  = Ok (print_one (mkElement W_T [] (Some (lit "a b")) None []), 0, 0) /\
  _plain_docx
    (parse_two (mkElement W_T [] (Some (lit "a   b")) None [])
               (mkElement W_T [] (Some (lit "a b")) None []))
    (print_one (mkElement W_T [] (Some (lit "a b")) None []))
  = Ok (plain_docx (mkElement W_T [] (Some (lit "a b")) None [])).
Proof.
  apply (docx_bytes_stable
           (parse_two (mkElement W_T [] (Some (lit "a   b")) None [])
                      (mkElement W_T [] (Some (lit "a b")) None []))
           print_one [x00]
           (mkElement W_T [] (Some (lit "a   b")) None [])
           (mkElement W_T [] (Some (lit "a b")) None []) 1 2);
    reflexivity.
Defined.

(** A paragraph with a marker of count 3. *)
Lemma odt_bytes_stable_example :
  _fix_odt_xml
    (parse_two (document (paragraph (Some (lit "a"))
                            [marker "3" (Some (lit "b"))]))
               (document (paragraph (Some (lit "a b")) [])))
    print_one py_int [x00]
  = Ok (print_one (document (paragraph (Some (lit "a b")) [])), 1, 2) /\
  _fix_odt_xml
    (parse_two (document (paragraph (Some (lit "a"))
                            [marker "3" (Some (lit "b"))]))
               (document (paragraph (Some (lit "a b")) [])))
    print_one py_int
    (print_one (document (paragraph (Some (lit "a b")) [])))
  = Ok (print_one (document (paragraph (Some (lit "a b")) [])), 0, 0).
Proof.
  apply (odt_bytes_stable
           (parse_two (document (paragraph (Some (lit "a"))
                                   [marker "3" (Some (lit "b"))]))
                      (document (paragraph (Some (lit "a b")) [])))
           print_one py_int [x00]
           (document (paragraph (Some (lit "a"))
                        [marker "3" (Some (lit "b"))]))
           (document (paragraph (Some (lit "a b")) [])) 1 2);
    reflexivity.
Defined.
